(** * A shallow embedding of [createChannelsNode]
      (packages/channels/src/node.ts)

    The node keeps one mutable record [channel] (buffer, id, origin,
    source, status), answers inbound [message] events in [handleEvents]
    and posts protocol envelopes with [send].  Every function of the
    closure is embedded below as a computation of a small state/error
    monad over that record; the effects that leave the closure
    ([postMessage] on the peer window, the [onStatusUpdate] and [onEvent]
    callbacks, [console.error]) are collected in an output log.  The
    callbacks are treated as observers: they are recorded, they do not
    call back into the node. *)

From Stdlib Require Import String Bool List ZArith Lia.
From stdpp Require Import base list.
Import ListNotations.
Open Scope string_scope.
Open Scope list_scope.
#[local] Set Warnings "-register-all".

(** ** JavaScript values

    [e.data] of a message event is a structured clone of whatever the
    sending window posted.  Objects are records of fields; an absent
    field reads as [undefined]. *)
Inductive jsval : Type :=
| JUndefined
| JNull
| JBool (b : bool)
| JNum (z : Z)
| JStr (s : string)
| JObj (fields : list (string * jsval)).

Fixpoint field_lookup (k : string) (fs : list (string * jsval)) : jsval :=
  match fs with
  | [] => JUndefined
  | (k', v) :: fs' => if String.eqb k k' then v else field_lookup k fs'
  end.

(** Property access [v.k]: a [TypeError] on [undefined] and [null]
    ([None]); a primitive has none of the protocol's field names. *)
Definition js_get (v : jsval) (k : string) : option jsval :=
  match v with
  | JUndefined | JNull => None
  | JObj fs => Some (field_lookup k fs)
  | _ => Some JUndefined
  end.

(** JavaScript truthiness ([NaN] is not modelled). *)
Definition truthy (v : jsval) : bool :=
  match v with
  | JUndefined | JNull => false
  | JBool b => b
  | JNum z => negb (Z.eqb z 0)
  | JStr s => negb (String.eqb s "")
  | JObj _ => true
  end.

(** Strict equality [===].  Every event carries a fresh structured clone,
    so an object is never identical to an object seen before. *)
Definition strict_eq (a b : jsval) : bool :=
  match a, b with
  | JUndefined, JUndefined | JNull, JNull => true
  | JBool x, JBool y => Bool.eqb x y
  | JNum x, JNum y => Z.eqb x y
  | JStr x, JStr y => String.eqb x y
  | _, _ => false
  end.

(** ** Message types (helpers.ts)

    Modelled from the spec: [helpers.ts] is not part of the sources.  The
    handshake types are the three handshake envelopes the node handles
    (open [handshake/syn], acknowledge [handshake/syn-ack], confirm
    [handshake/ack]); the internal-protocol types are the response and
    disconnect envelopes of the spec (sections 4.3 and 4.2). *)
Definition isHandshakeMessage (t : jsval) : bool :=
  match t with
  | JStr s => String.eqb s "handshake/syn" || String.eqb s "handshake/syn-ack"
              || String.eqb s "handshake/ack"
  | _ => false
  end.

Definition isInternalMessage (t : jsval) : bool :=
  match t with
  | JStr s => String.eqb s "channel/response" || String.eqb s "channel/disconnect"
  | _ => false
  end.

(** An application type is one that is neither. *)
Definition is_app_type (t : string) : bool :=
  negb (isHandshakeMessage (JStr t)) && negb (isInternalMessage (JStr t)).

(** ** The data model (types.ts) *)
Inductive ChannelStatus : Type :=
| Connecting | Connected | Reconnecting | Disconnected | Unhealthy.

Definition status_eqb (a b : ChannelStatus) : bool :=
  match a, b with
  | Connecting, Connecting | Connected, Connected | Reconnecting, Reconnecting
  | Disconnected, Disconnected | Unhealthy, Unhealthy => true
  | _, _ => false
  end.

(** Windows are told apart by identity: a window is a number. *)
Definition window := nat.

(** [ChannelsNodeChannel], plus the state of the [uuid()] generator:
    [ch_next_uuid] is the id the next posted envelope gets. *)
Record ChannelsNodeChannel : Type := mkChannel {
  ch_buffer : list (string * jsval);
  ch_id : jsval;
  ch_origin : option string;
  ch_source : option window;
  ch_status : ChannelStatus;
  ch_next_uuid : nat
}.

(** [ProtocolMsg]: the envelope posted to the peer. *)
Record ProtocolMsg : Type := mkMsg {
  msg_connectionId : jsval;
  msg_data : jsval;
  msg_domain : string;
  msg_from : string;
  msg_id : nat;
  msg_to : string;
  msg_type : string
}.

(** An inbound [MessageEvent]: [e.data], [e.origin], [e.source]. *)
Record MessageEvent : Type := mkEvent {
  ev_data : jsval;
  ev_origin : string;
  ev_source : option window
}.

(** What leaves the closure. *)
Inductive effect : Type :=
| PostMessage (target : window) (targetOrigin : string) (msg : ProtocolMsg)
| StatusUpdate (next : ChannelStatus)
| OnEvent (type : jsval) (data : jsval)
| ConsoleError.

(** ** A state/error monad over the channel record *)
Inductive result (A : Type) : Type :=
| Ok (a : A) (st : ChannelsNodeChannel) (out : list effect)
| Throw (err : string) (st : ChannelsNodeChannel) (out : list effect).
Arguments Ok {A} a st out.
Arguments Throw {A} err st out.

Definition M (A : Type) : Type := ChannelsNodeChannel -> result A.

Definition ret {A} (a : A) : M A := fun st => Ok a st [].

Definition bind {A B} (m : M A) (f : A -> M B) : M B :=
  fun st =>
    match m st with
    | Ok a st1 o1 =>
        match f a st1 with
        | Ok b st2 o2 => Ok b st2 (o1 ++ o2)
        | Throw e st2 o2 => Throw e st2 (o1 ++ o2)
        end
    | Throw e st1 o1 => Throw e st1 o1
    end.

Notation "x <- m ;; k" := (bind m (fun x => k))
  (at level 100, m at next level, right associativity).
Notation "m ;;; k" := (bind m (fun _ => k))
  (at level 100, right associativity).

Definition get_chan : M ChannelsNodeChannel := fun st => Ok st st [].
Definition emit (e : effect) : M unit := fun st => Ok tt st [e].
Definition throw {A} (err : string) : M A := fun st => Throw err st [].

(** [v.k] inside the monad. *)
Definition get (v : jsval) (k : string) : M jsval :=
  match js_get v k with
  | Some x => ret x
  | None => throw "TypeError"
  end.

Definition set_buffer b st :=
  mkChannel b (ch_id st) (ch_origin st) (ch_source st) (ch_status st) (ch_next_uuid st).
Definition set_id i st :=
  mkChannel (ch_buffer st) i (ch_origin st) (ch_source st) (ch_status st) (ch_next_uuid st).
Definition set_origin o st :=
  mkChannel (ch_buffer st) (ch_id st) o (ch_source st) (ch_status st) (ch_next_uuid st).
Definition set_source s st :=
  mkChannel (ch_buffer st) (ch_id st) (ch_origin st) s (ch_status st) (ch_next_uuid st).
Definition set_status s st :=
  mkChannel (ch_buffer st) (ch_id st) (ch_origin st) (ch_source st) s (ch_next_uuid st).
Definition set_next_uuid n st :=
  mkChannel (ch_buffer st) (ch_id st) (ch_origin st) (ch_source st) (ch_status st) n.

Definition modify (f : ChannelsNodeChannel -> ChannelsNodeChannel) : M unit :=
  fun st => Ok tt (f st) [].

(** [uuid()] *)
Definition uuid : M nat :=
  fun st => Ok (ch_next_uuid st) (set_next_uuid (S (ch_next_uuid st)) st) [].

(** Truthiness of [channel.origin] (a string or [null]). *)
Definition origin_truthy (o : option string) : bool :=
  match o with Some s => negb (String.eqb s "") | None => false end.

(** [e.origin === channel.origin] *)
Definition origin_is (o : option string) (s : string) : bool :=
  match o with Some s' => String.eqb s s' | None => false end.

(** The error [send] throws when [postMessage] fails:
    [new Error(`Failed to postMessage '${msg.id}' on '${config.id}'`)]. *)
Definition postMessage_error : string := "Failed to postMessage".

(** ** The node (node.ts) *)
Section Node.

(** [config.id] and [config.connectTo]. *)
Variable config_id : string.
Variable config_connectTo : string.

(** What the browser's [postMessage(msg, { targetOrigin })] does is not
    part of the sources: it throws, for instance a [SyntaxError] when
    [targetOrigin] does not parse as a URL (the origin ["null"] of a
    sandboxed frame), or a [DataCloneError].  The node is embedded for
    every such verdict on (target window, target origin, message). *)
Variable postMessage_throws : window -> string -> ProtocolMsg -> bool.

(** [isLegacyHandshakeMessage] lives in [helpers.ts], which is not part
    of the sources; the node is embedded for every such check. *)
Variable isLegacyHandshakeMessage : MessageEvent -> bool.

(** [send(type, data)] *)
Definition send (type : string) (data : jsval) : M unit :=
  channel <- get_chan ;;
  if negb (isHandshakeMessage (JStr type)) && negb (isInternalMessage (JStr type))
     && (status_eqb (ch_status channel) Connecting
         || status_eqb (ch_status channel) Reconnecting)
  then modify (fun c => set_buffer (ch_buffer c ++ [(type, data)]) c)
  else
    match ch_source channel with
    | Some source =>
        if truthy (ch_id channel) && origin_truthy (ch_origin channel) then
          match ch_origin channel with
          | Some origin =>
              id <- uuid ;;
              if postMessage_throws source origin
                   (mkMsg (ch_id channel) data "sanity/channels" config_id id
                          config_connectTo type)
              then throw postMessage_error
              else emit (PostMessage source origin
                           (mkMsg (ch_id channel) data "sanity/channels" config_id id
                                  config_connectTo type))
          | None => ret tt
          end
        else ret tt
    | None => ret tt
    end.

(** [toFlush.forEach(({ type, data }) => send(type, data))] *)
Fixpoint send_each (toFlush : list (string * jsval)) : M unit :=
  match toFlush with
  | [] => ret tt
  | (type, data) :: rest => send type data ;;; send_each rest
  end.

(** [flush()] *)
Definition flush : M unit :=
  channel <- get_chan ;;
  let toFlush := ch_buffer channel in
  modify (set_buffer []) ;;;
  send_each toFlush.

(** [setConnectionStatus(next)] *)
Definition setConnectionStatus (next : ChannelStatus) : M unit :=
  modify (set_status next) ;;;
  emit (StatusUpdate next) ;;;
  if status_eqb next Connected then flush else ret tt.

(** [isValidMessageEvent(e)]: [None] when reading [data.domain] throws. *)
Definition isValidMessageEvent (e : MessageEvent) : M bool :=
  let data := ev_data e in
  domain <- get data "domain" ;;
  if negb (strict_eq domain (JStr "sanity/channels")) then ret false else
  to <- get data "to" ;;
  if negb (strict_eq to (JStr config_id)) then ret false else
  from <- get data "from" ;;
  if negb (strict_eq from (JStr config_connectTo)) then ret false else
  type <- get data "type" ;;
  ret (negb (strict_eq type (JStr "channel/response"))).

(** The handshake branch of [handleEvents]:
    [if (isHandshakeMessage(data.type) && data.data) { ... }]. *)
Definition handleHandshake (e : MessageEvent) (type payload : jsval) : M unit :=
  if strict_eq type (JStr "handshake/syn") then
    modify (set_origin (Some (ev_origin e))) ;;;
    sid <- get payload "id" ;;
    modify (set_id sid) ;;;
    setConnectionStatus Connecting ;;;
    channel <- get_chan ;;
    send "handshake/syn-ack" (JObj [("id", ch_id channel)])
  else
    sid <- get payload "id" ;;
    channel <- get_chan ;;
    if strict_eq type (JStr "handshake/ack") && strict_eq sid (ch_id channel)
    then setConnectionStatus Connected
    else ret tt.

(** The other branch: [else if (data.connectionId === channel.id && ...)]. *)
Definition handleOther (e : MessageEvent) (type payload : jsval) : M unit :=
  let data := ev_data e in
  connectionId <- get data "connectionId" ;;
  channel <- get_chan ;;
  if strict_eq connectionId (ch_id channel) && origin_is (ch_origin channel) (ev_origin e)
  then
    (if strict_eq type (JStr "channel/disconnect") then
       setConnectionStatus Disconnected
     else
       emit (OnEvent type payload) ;;;
       msgId <- get data "id" ;;
       send "channel/response" (JObj [("responseTo", msgId)]))
  else ret tt.

(** [channel.source = e.source] when [e.source] is set and differs. *)
Definition updateSource (e : MessageEvent) : M unit :=
  channel <- get_chan ;;
  match ev_source e with
  | Some s =>
      if negb (match ch_source channel with
               | Some s' => Nat.eqb s' s
               | None => false
               end)
      then modify (set_source (Some s)) else ret tt
  | None => ret tt
  end.

(** [handleEvents] once [isValidMessageEvent(e)] holds. *)
Definition handleValidEvent (e : MessageEvent) : M unit :=
  let data := ev_data e in
  channel <- get_chan ;;
  if origin_truthy (ch_origin channel)
     && negb (origin_is (ch_origin channel) (ev_origin e))
  then ret tt else
  updateSource e ;;;
  type <- get data "type" ;;
  payload <- get data "data" ;;
  if isHandshakeMessage type && truthy payload then handleHandshake e type payload
  else handleOther e type payload.

(** [handleEvents(e)] *)
Definition handleEvents (e : MessageEvent) : M unit :=
  if isLegacyHandshakeMessage e then emit ConsoleError else
  valid <- isValidMessageEvent e ;;
  if negb valid then ret tt else handleValidEvent e.

(** [disconnect()] *)
Definition disconnect : M unit :=
  channel <- get_chan ;;
  if status_eqb (ch_status channel) Disconnected then ret tt
  else setConnectionStatus Disconnected.

(** The public [send]. *)
Definition sendPublic (type : string) (data : jsval) : M unit := send type data.

(** ** Runs of the node

    What the caller and the window do to the node while its listener is
    registered: call [send], or deliver a [message] event.  ([destroy()]
    disconnects and removes the listener; it is part of the node's
    lifecycle below.)  A throw of [send] or of the listener aborts that
    call only; the state it has reached stays. *)
Inductive input : Type :=
| CallSend (type : string) (data : jsval)
| Deliver (e : MessageEvent).

Definition step (i : input) : M unit :=
  match i with
  | CallSend type data => sendPublic type data
  | Deliver e => handleEvents e
  end.

Definition outcome {A} (r : result A) : ChannelsNodeChannel * list effect :=
  match r with
  | Ok _ st out | Throw _ st out => (st, out)
  end.

Fixpoint run (st : ChannelsNodeChannel) (inputs : list input)
  : ChannelsNodeChannel * list effect :=
  match inputs with
  | [] => (st, [])
  | i :: rest =>
      let (st1, o1) := outcome (step i st) in
      let (st2, o2) := run st1 rest in
      (st2, app o1 o2)
  end.

End Node.

(** The record as [createChannelsNode] builds it; [initialise()] then
    sets the status to [connecting] again. *)
Definition channel0 : ChannelsNodeChannel :=
  mkChannel [] JNull None None Connecting 0.


(** The application messages posted to the peer, in posting order. *)
Definition posted_app (out : list effect) : list (string * jsval) :=
  flat_map (fun o => match o with
                     | PostMessage _ _ m =>
                         if is_app_type (msg_type m) then [(msg_type m, msg_data m)] else []
                     | _ => []
                     end) out.

(** Modelled from the spec: [isLegacyHandshakeMessage] of [helpers.ts]
    is not part of the sources.  The spec (section 4.3) describes it as
    recognising a handshake of an older protocol version, shaped
    differently from the current one; we take that shape to be a
    handshake-typed envelope of this domain without the [connectionId]
    field every current envelope carries. *)
Definition isLegacyHandshakeMessage_spec (e : MessageEvent) : bool :=
  match ev_data e with
  | JObj fs =>
      strict_eq (field_lookup "domain" fs) (JStr "sanity/channels")
      && isHandshakeMessage (field_lookup "type" fs)
      && strict_eq (field_lookup "connectionId" fs) JUndefined
  | _ => false
  end.

(** A current-protocol envelope, as the peer [studio] posts it to the
    node [preview]. *)
Definition envelope (connectionId : jsval) (mid : string) (type : string)
  (data : jsval) : jsval :=
  JObj [("connectionId", connectionId); ("data", data);
        ("domain", JStr "sanity/channels"); ("from", JStr "studio");
        ("id", JStr mid); ("to", JStr "preview"); ("type", JStr type)].

Definition syn_event (origin : string) (source : window) (sid : string) : MessageEvent :=
  mkEvent (envelope JNull "m-syn" "handshake/syn" (JObj [("id", JStr sid)]))
          origin (Some source).

Definition ack_event (origin : string) (source : window) (sid : string) : MessageEvent :=
  mkEvent (envelope (JStr sid) "m-ack" "handshake/ack" (JObj [("id", JStr sid)]))
          origin (Some source).

Definition app_event (origin : string) (source : window) (sid mid type : string)
  (data : jsval) : MessageEvent :=
  mkEvent (envelope (JStr sid) mid type data) origin (Some source).

(** The browser's verdict for the target origins of the runs below: an
    origin of a message event is either ["null"] (opaque, e.g. a
    sandboxed frame), which is no URL, so [postMessage] throws a
    [SyntaxError], or ["scheme://host[:port]"], which parses.  The
    envelopes the node posts are plain data, which always clones. *)
Definition opaque_target_throws (w : window) (targetOrigin : string) (m : ProtocolMsg) : bool :=
  String.eqb targetOrigin "null".

Definition node_run := run "preview" "studio" opaque_target_throws isLegacyHandshakeMessage_spec.
Definition node_step i := step "preview" "studio" opaque_target_throws isLegacyHandshakeMessage_spec i.

Definition studio_origin : string := "https://studio.example".
Definition evil_origin : string := "https://evil.example".

(** A [handshake/syn] whose payload carries no session id. *)
Definition syn_event_without_id (origin : string) (source : window) : MessageEvent :=
  mkEvent (envelope JNull "m-syn" "handshake/syn" (JObj [])) origin (Some source).

(** An application envelope without a [connectionId]. *)
Definition app_event_without_session (origin : string) (source : window) (mid type : string)
  (data : jsval) : MessageEvent :=
  mkEvent (JObj [("data", data); ("domain", JStr "sanity/channels"); ("from", JStr "studio");
                 ("id", JStr mid); ("to", JStr "preview"); ("type", JStr type)])
          origin (Some source).

(** The node after a complete handshake with the studio window [7]. *)
Definition connected_channel : ChannelsNodeChannel :=
  fst (node_run channel0 [Deliver (syn_event studio_origin 7 "k");
                          Deliver (ack_event studio_origin 7 "k")]).

(** The peer closing the session ["k"]: a [channel/disconnect]
    envelope. *)
Definition disconnect_event (origin : string) (source : window) (sid : string) : MessageEvent :=
  app_event origin source sid "m-dc" "channel/disconnect" JNull.



(** ** The node's lifecycle

    [createChannelsNode] builds the record [channel0] and calls
    [initialise()], which registers [handleEvents] as the window's
    [message] listener and reports [connecting].  [destroy()] disconnects
    and then removes the listener.  The window hands a [message] event to
    the node only while the listener is registered. *)
Record node_state : Type := mkNodeState {
  node_listening : bool;
  node_channel : ChannelsNodeChannel
}.

(** What the application and the window do to a node once it exists:
    call the returned [send], call [destroy], or post a message to the
    window. *)
Inductive node_call : Type :=
| NodeSend (type : string) (data : jsval)
| NodeDestroy
| WindowMessage (e : MessageEvent).

Section Lifecycle.

Variable config_id : string.
Variable config_connectTo : string.
Variable postMessage_throws : window -> string -> ProtocolMsg -> bool.
Variable isLegacyHandshakeMessage : MessageEvent -> bool.

(** [initialise()]: [window.addEventListener('message', handleEvents)],
    then [setConnectionStatus('connecting')]. *)
Definition initialise (n : node_state) : node_state * list effect :=
  let (st, out) := outcome (setConnectionStatus config_id config_connectTo postMessage_throws Connecting
                              (node_channel n)) in
  (mkNodeState true st, out).

(** [createChannelsNode(config)]: the record, then [initialise()]. *)
Definition createChannelsNode : node_state * list effect :=
  initialise (mkNodeState false channel0).

(** [destroy()]: [disconnect()], then
    [window.removeEventListener('message', handleEvents)]; a throw of
    [disconnect()] would skip the removal. *)
Definition destroy (n : node_state) : node_state * list effect :=
  match disconnect config_id config_connectTo postMessage_throws (node_channel n) with
  | Ok _ st out => (mkNodeState false st, out)
  | Throw _ st out => (mkNodeState (node_listening n) st, out)
  end.

(** The window dispatching a [message] event: [handleEvents] runs only
    while it is registered. *)
Definition dispatch (e : MessageEvent) (n : node_state) : node_state * list effect :=
  if node_listening n then
    let (st, out) := outcome (handleEvents config_id config_connectTo postMessage_throws
                                isLegacyHandshakeMessage e (node_channel n)) in
    (mkNodeState true st, out)
  else (n, []).

(** The [send] of the returned object ([sendPublic]). *)
Definition node_send (type : string) (data : jsval) (n : node_state) : node_state * list effect :=
  let (st, out) := outcome (sendPublic config_id config_connectTo postMessage_throws type data (node_channel n)) in
  (mkNodeState (node_listening n) st, out).

Definition call_node (c : node_call) (n : node_state) : node_state * list effect :=
  match c with
  | NodeSend type data => node_send type data n
  | NodeDestroy => destroy n
  | WindowMessage e => dispatch e n
  end.

Fixpoint call_nodes (n : node_state) (cs : list node_call) : node_state * list effect :=
  match cs with
  | [] => (n, [])
  | c :: rest =>
      let (n1, o1) := call_node c n in
      let (n2, o2) := call_nodes n1 rest in
      (n2, app o1 o2)
  end.

(** Whether the listener, on the channel [st], gets past its guards with
    [e]: not a legacy handshake message, a valid envelope, and either no
    origin pinned or [e.origin] equal to the pinned one. *)
Definition accepts (st : ChannelsNodeChannel) (e : MessageEvent) : bool :=
  negb (isLegacyHandshakeMessage e)
  && match isValidMessageEvent config_id config_connectTo e st with
     | Ok b _ _ => b
     | Throw _ _ _ => false
     end
  && negb (origin_truthy (ch_origin st) && negb (origin_is (ch_origin st) (ev_origin e))).

(** The message events among [cs] that the window dispatches to the
    listener and that get past its guards. *)
Fixpoint accepted_events (n : node_state) (cs : list node_call) : list MessageEvent :=
  match cs with
  | [] => []
  | c :: rest =>
      match c with
      | WindowMessage e => if node_listening n && accepts (node_channel n) e then [e] else []
      | _ => []
      end
      ++ accepted_events (fst (call_node c n)) rest
  end.

(** A node from [createChannelsNode] through the calls [cs]: its state
    and everything that left it, creation included. *)
Definition lifecycle (cs : list node_call) : node_state * list effect :=
  let (n0, o0) := createChannelsNode in
  let (n, o) := call_nodes n0 cs in
  (n, app o0 o).

End Lifecycle.

(** The accepted message events of a node created and then called with
    [cs]. *)
Definition heard_events cid cto pm legacy (cs : list node_call) : list MessageEvent :=
  accepted_events cid cto pm legacy (fst (createChannelsNode cid cto pm)) cs.

Definition node_lifecycle := lifecycle "preview" "studio" opaque_target_throws isLegacyHandshakeMessage_spec.

(** A node that buffered a message, then completed a handshake with the
    studio window [7]. *)
Definition connected_node : node_state :=
  fst (node_lifecycle [NodeSend "ping" (JNum 1);
                       WindowMessage (syn_event studio_origin 7 "k");
                       WindowMessage (ack_event studio_origin 7 "k")]).

(** The node after a [handshake/syn] without a session id and one
    buffered message. *)
Definition sessionless_channel : ChannelsNodeChannel :=
  fst (node_run channel0 [Deliver (syn_event_without_id studio_origin 7);
                          CallSend "ping" (JNum 1)]).

(** ** Facts about the monad and the readers *)

Ltac split_ifs :=
  repeat match goal with
         | |- context [if ?b then _ else _] => destruct b eqn:?
         end.

Lemma get_cases (v : jsval) (k : string) (st : ChannelsNodeChannel) :
  (exists x, js_get v k = Some x /\ get v k st = Ok x st [])
  \/ (js_get v k = None /\ get v k st = Throw "TypeError" st []).
Proof.
  unfold get. destruct (js_get v k) as [x|]; [left; exists x | right]; auto.
Qed.

(** Validation reads [e.data] only: it leaves the channel as it is and
    emits nothing, or throws before anything happened. *)
Lemma isValidMessageEvent_pure cid cto (e : MessageEvent) st :
  (exists b, isValidMessageEvent cid cto e st = Ok b st [])
  \/ isValidMessageEvent cid cto e st = Throw "TypeError" st [].
Proof.
  unfold isValidMessageEvent, bind, get, ret, throw.
  destruct (ev_data e); simpl; [right; reflexivity | right; reflexivity | ..];
    split_ifs; simpl; left; eauto.
Qed.

(** Reading [data.domain] throws exactly on [null] and [undefined]. *)
Lemma isValidMessageEvent_throws cid cto e st :
  (ev_data e = JNull \/ ev_data e = JUndefined) ->
  isValidMessageEvent cid cto e st = Throw "TypeError" st [].
Proof. unfold isValidMessageEvent, bind, get, throw. intros [H|H]; rewrite H; reflexivity. Qed.

(** The effects one call to [handleEvents] can have when it returns at
    its first checks. *)
Definition only_console_error (out : list effect) : Prop :=
  Forall (fun o => o = ConsoleError) out.

Lemma bind_ok_nil {A B} (m : M A) (f : A -> M B) st a st1 :
  m st = Ok a st1 [] -> bind m f st = f a st1.
Proof. unfold bind. intros ->. destruct (f a st1); reflexivity. Qed.

Lemma bind_throw {A B} (m : M A) (f : A -> M B) st err st1 o1 :
  m st = Throw err st1 o1 -> bind m f st = Throw err st1 o1.
Proof. unfold bind. intros ->. reflexivity. Qed.

Lemma string_neqb (a b : string) : a <> b -> String.eqb a b = false.
Proof. intros H. apply String.eqb_neq. exact H. Qed.


(** The three ways through the first checks of [handleEvents]. *)
Lemma handleEvents_cases cid cto pm legacy e st :
  (legacy e = true /\ handleEvents cid cto pm legacy e st = Ok tt st [ConsoleError])
  \/ (legacy e = false /\ (handleEvents cid cto pm legacy e st = Ok tt st []
                           \/ handleEvents cid cto pm legacy e st = Throw "TypeError" st []))
  \/ (legacy e = false /\ isValidMessageEvent cid cto e st = Ok true st []
      /\ handleEvents cid cto pm legacy e st = handleValidEvent cid cto pm e st).
Proof.
  unfold handleEvents. destruct (legacy e) eqn:El; [left; auto|right].
  destruct (isValidMessageEvent_pure cid cto e st) as [[b Hb]|Hb].
  - rewrite (bind_ok_nil _ _ _ _ _ Hb). destruct b; simpl negb; cbv iota.
    + right. auto.
    + left. auto.
  - rewrite (bind_throw _ _ _ _ _ _ Hb). left. auto.
Qed.

Lemma get_chan_bind {B} (f : ChannelsNodeChannel -> M B) st :
  bind get_chan f st = f st st.
Proof. apply bind_ok_nil. reflexivity. Qed.

(** The outcomes of [send]: the message is buffered; or it is dropped;
    or, with a peer reference, a truthy session id and an origin, it
    gets a fresh id and is handed to [postMessage], which posts it or
    throws, and [send] rethrows. *)
Lemma send_cases cid cto pm t d st :
  (is_app_type t = true
   /\ (ch_status st = Connecting \/ ch_status st = Reconnecting)
   /\ send cid cto pm t d st = Ok tt (set_buffer (ch_buffer st ++ [(t, d)]) st) [])
  \/ send cid cto pm t d st = Ok tt st []
  \/ (exists w o, ch_source st = Some w /\ ch_origin st = Some o /\ o <> ""
        /\ truthy (ch_id st) = true
        /\ send cid cto pm t d st
           = if pm w o (mkMsg (ch_id st) d "sanity/channels" cid (ch_next_uuid st) cto t)
             then Throw postMessage_error (set_next_uuid (S (ch_next_uuid st)) st) []
             else Ok tt (set_next_uuid (S (ch_next_uuid st)) st)
                    [PostMessage w o (mkMsg (ch_id st) d "sanity/channels" cid
                                            (ch_next_uuid st) cto t)]).
Proof.
  unfold send. rewrite get_chan_bind.
  destruct (negb (isHandshakeMessage (JStr t)) && negb (isInternalMessage (JStr t))) eqn:Ht;
  destruct (status_eqb (ch_status st) Connecting || status_eqb (ch_status st) Reconnecting) eqn:Hs;
    simpl andb; cbv iota.
  1: left; split; [exact Ht|]; split; [|reflexivity];
     destruct (ch_status st); simpl in Hs; try discriminate; auto.
  all: right; destruct (ch_source st) as [w|]; [|left; reflexivity].
  all: destruct (truthy (ch_id st)) eqn:Hid; simpl; [|left; reflexivity].
  all: destruct (ch_origin st) as [o|]; simpl; [|left; reflexivity].
  all: destruct (String.eqb o "") eqn:Ho; simpl; [left; reflexivity|].
  all: right; exists w, o; repeat split; auto; [apply String.eqb_neq; exact Ho|].
  all: unfold bind, uuid; simpl; destruct (pm _ _ _); reflexivity.
Qed.

(** ** Origin pinning *)

(** Claim C3: once [channel.origin] holds an origin (a browser never
    serialises an origin as the empty string), a message event from any
    other origin leaves the channel as it is and causes no callback and no
    reply; at most the legacy warning is logged.  This holds for every
    envelope, a matching session id or a handshake type included. *)
Theorem origin_pinned_rejects_foreign cid cto pm legacy st e o :
  ch_origin st = Some o -> o <> "" -> ev_origin e <> o ->
  fst (outcome (handleEvents cid cto pm legacy e st)) = st
  /\ only_console_error (snd (outcome (handleEvents cid cto pm legacy e st))).
Proof.
  intros Ho Hne Hdiff.
  destruct (handleEvents_cases cid cto pm legacy e st)
    as [[_ ->]|[[_ [->| ->]]|[_ [_ ->]]]]; simpl; try (split; [reflexivity|]; repeat constructor).
  unfold handleValidEvent. rewrite get_chan_bind, Ho. simpl.
  rewrite (string_neqb _ _ Hne), (string_neqb _ _ Hdiff). simpl.
  split; [reflexivity | constructor].
Qed.

(** ** What a computation emits *)

Definition handler_calls (out : list effect) : list (jsval * jsval) :=
  flat_map (fun o => match o with OnEvent t d => [(t, d)] | _ => [] end) out.

Definition status_updates (out : list effect) : list ChannelStatus :=
  flat_map (fun o => match o with StatusUpdate s => [s] | _ => [] end) out.

Definition posts (out : list effect) : list (window * string * ProtocolMsg) :=
  flat_map (fun o => match o with PostMessage w t m => [(w, t, m)] | _ => [] end) out.

Lemma handler_calls_app o1 o2 : handler_calls (o1 ++ o2) = handler_calls o1 ++ handler_calls o2.
Proof. apply flat_map_app. Qed.
Lemma status_updates_app o1 o2 : status_updates (o1 ++ o2) = status_updates o1 ++ status_updates o2.
Proof. apply flat_map_app. Qed.
Lemma posts_app o1 o2 : posts (o1 ++ o2) = posts o1 ++ posts o2.
Proof. apply flat_map_app. Qed.
Lemma posted_app_app o1 o2 : posted_app (o1 ++ o2) = posted_app o1 ++ posted_app o2.
Proof. apply flat_map_app. Qed.

(** A computation that never invokes [config.onEvent]. *)
Definition never_calls_handler {A} (m : M A) : Prop :=
  forall st, handler_calls (snd (outcome (m st))) = [].

Create HintDb node_effects.

Lemma bind_never_calls_handler {A B} (m : M A) (f : A -> M B) :
  never_calls_handler m -> (forall a, never_calls_handler (f a)) ->
  never_calls_handler (bind m f).
Proof.
  unfold never_calls_handler, bind. intros Hm Hf st. specialize (Hm st).
  destruct (m st) as [a st1 o1|err st1 o1]; simpl in *; [|exact Hm].
  specialize (Hf a st1). destruct (f a st1); simpl in *;
    rewrite handler_calls_app, Hm, Hf; reflexivity.
Qed.

Lemma ret_never {A} (a : A) : never_calls_handler (ret a).
Proof. intros st. reflexivity. Qed.
Lemma get_chan_never : never_calls_handler get_chan.
Proof. intros st. reflexivity. Qed.
Lemma modify_never f : never_calls_handler (modify f).
Proof. intros st. reflexivity. Qed.
Lemma uuid_never : never_calls_handler uuid.
Proof. intros st. reflexivity. Qed.
Lemma get_never v k : never_calls_handler (get v k).
Proof. intros st. unfold get. destruct (js_get v k); reflexivity. Qed.
Lemma emit_status_never s : never_calls_handler (emit (StatusUpdate s)).
Proof. intros st. reflexivity. Qed.
Lemma emit_post_never w t m : never_calls_handler (emit (PostMessage w t m)).
Proof. intros st. reflexivity. Qed.

Lemma throw_never {A} err : never_calls_handler (@throw A err).
Proof. intros st. reflexivity. Qed.

#[export] Hint Resolve bind_never_calls_handler ret_never get_chan_never
  modify_never uuid_never get_never emit_status_never emit_post_never throw_never : node_effects.

Ltac never_calls :=
  repeat match goal with
         | |- never_calls_handler (bind _ _) =>
             apply bind_never_calls_handler; [|intros ?]
         | |- never_calls_handler (if ?b then _ else _) => destruct b
         | |- never_calls_handler _ => solve [auto with node_effects]
         end.

Lemma send_never cid cto pm t d : never_calls_handler (send cid cto pm t d).
Proof.
  unfold send. apply bind_never_calls_handler; [auto with node_effects|intros ch].
  destruct (_ && _); [auto with node_effects|].
  destruct (ch_source ch); [|auto with node_effects].
  destruct (_ && _); [|auto with node_effects].
  destruct (ch_origin ch); [|auto with node_effects]. never_calls.
Qed.
#[export] Hint Resolve send_never : node_effects.

Lemma send_each_never cid cto pm l : never_calls_handler (send_each cid cto pm l).
Proof. induction l as [|[t d] l IH]; simpl; auto with node_effects. Qed.
#[export] Hint Resolve send_each_never : node_effects.

Lemma flush_never cid cto pm : never_calls_handler (flush cid cto pm).
Proof. unfold flush. never_calls. Qed.
#[export] Hint Resolve flush_never : node_effects.

Lemma setConnectionStatus_never cid cto pm s : never_calls_handler (setConnectionStatus cid cto pm s).
Proof. unfold setConnectionStatus. never_calls. Qed.
#[export] Hint Resolve setConnectionStatus_never : node_effects.

Lemma handleHandshake_never cid cto pm e t p : never_calls_handler (handleHandshake cid cto pm e t p).
Proof.
  unfold handleHandshake. never_calls.
Qed.

(** [updateSource] only touches [channel.source], and leaves it pointing
    at [e.source] when that is set. *)
Lemma updateSource_spec e st :
  updateSource e st
  = Ok tt (set_source (match ev_source e with Some s => Some s | None => ch_source st end) st) [].
Proof.
  unfold updateSource. rewrite get_chan_bind.
  destruct (ev_source e) as [s|], (ch_source st) as [s'|] eqn:Es; simpl;
    try (destruct st; simpl in *; subst; reflexivity).
  destruct (Nat.eqb s' s) eqn:E; simpl; [|reflexivity].
  apply Nat.eqb_eq in E. subst. destruct st; simpl in *; subst; reflexivity.
Qed.

Lemma get_obj fs k st : get (JObj fs) k st = Ok (field_lookup k fs) st [].
Proof. reflexivity. Qed.

(** What [isValidMessageEvent] accepts. *)
Lemma isValidMessageEvent_true cid cto e st st' o :
  isValidMessageEvent cid cto e st = Ok true st' o ->
  exists fs, ev_data e = JObj fs
    /\ strict_eq (field_lookup "domain" fs) (JStr "sanity/channels") = true
    /\ strict_eq (field_lookup "to" fs) (JStr cid) = true
    /\ strict_eq (field_lookup "from" fs) (JStr cto) = true
    /\ strict_eq (field_lookup "type" fs) (JStr "channel/response") = false.
Proof.
  unfold isValidMessageEvent, bind, get, ret, throw.
  destruct (ev_data e) as [| | | | |fs]; simpl; try discriminate.
  exists fs. split; [reflexivity|].
  destruct (strict_eq (field_lookup "domain" fs) _); simpl; [|discriminate].
  destruct (strict_eq (field_lookup "to" fs) _); simpl; [|discriminate].
  destruct (strict_eq (field_lookup "from" fs) _); simpl; [|discriminate].
  destruct (strict_eq (field_lookup "type" fs) _); simpl; [discriminate|].
  auto.
Qed.

(** [handleValidEvent] after the origin check, for an object [e.data]:
    the source update and the two reads of [data.type] and [data.data]. *)
Lemma handleValidEvent_unfold cid cto pm e st fs :
  ev_data e = JObj fs ->
  handleValidEvent cid cto pm e st =
  if origin_truthy (ch_origin st) && negb (origin_is (ch_origin st) (ev_origin e))
  then Ok tt st []
  else
    let st1 := set_source (match ev_source e with Some s => Some s | None => ch_source st end) st in
    let type := field_lookup "type" fs in
    let payload := field_lookup "data" fs in
    if isHandshakeMessage type && truthy payload
    then handleHandshake cid cto pm e type payload st1
    else handleOther cid cto pm e type payload st1.
Proof.
  intros He. unfold handleValidEvent. cbv zeta. rewrite get_chan_bind.
  destruct (_ && _); [reflexivity|].
  rewrite (bind_ok_nil _ _ _ _ _ (updateSource_spec e st)).
  rewrite He, (bind_ok_nil _ _ _ _ _ (get_obj _ _ _)), (bind_ok_nil _ _ _ _ _ (get_obj _ _ _)).
  destruct (_ && _); reflexivity.
Qed.

(** [handleOther] on an object [e.data]. *)
Lemma handleOther_unfold cid cto pm e type payload st fs :
  ev_data e = JObj fs ->
  handleOther cid cto pm e type payload st =
  if strict_eq (field_lookup "connectionId" fs) (ch_id st)
     && origin_is (ch_origin st) (ev_origin e)
  then
    (if strict_eq type (JStr "channel/disconnect") then
       setConnectionStatus cid cto pm Disconnected st
     else
       match emit (OnEvent type payload) st with
       | Ok _ st2 o2 =>
           match send cid cto pm "channel/response"
                   (JObj [("responseTo", field_lookup "id" fs)]) st2 with
           | Ok b st3 o3 => Ok b st3 (o2 ++ o3)
           | Throw er st3 o3 => Throw er st3 (o2 ++ o3)
           end
       | Throw er st2 o2 => Throw er st2 o2
       end)
  else Ok tt st [].
Proof.
  intros He. unfold handleOther. cbv zeta. rewrite He.
  rewrite (bind_ok_nil _ _ _ _ _ (get_obj _ _ _)), get_chan_bind.
  destruct (_ && _); [|reflexivity].
  destruct (strict_eq type _); [reflexivity|].
  unfold bind at 1. simpl. rewrite (bind_ok_nil _ _ _ _ _ (get_obj _ _ _)).
  reflexivity.
Qed.

(** ** Session pinning *)

(** Claim C2: an inbound envelope whose [connectionId] differs from the
    channel's session id [channel.id] never reaches [config.onEvent],
    whatever its type; a [handshake/syn] may still (re)establish the
    session, but it does not reach the handler either. *)
Theorem session_mismatch_never_reaches_handler cid cto pm legacy st e fs :
  ev_data e = JObj fs ->
  strict_eq (field_lookup "connectionId" fs) (ch_id st) = false ->
  handler_calls (snd (outcome (handleEvents cid cto pm legacy e st))) = [].
Proof.
  intros He Hid.
  destruct (handleEvents_cases cid cto pm legacy e st)
    as [[_ ->]|[[_ [->| ->]]|[_ [_ ->]]]]; try reflexivity.
  rewrite (handleValidEvent_unfold _ _ _ _ _ _ He). cbv zeta.
  destruct (_ && _); [reflexivity|].
  destruct (_ && truthy _); [apply handleHandshake_never|].
  rewrite (handleOther_unfold _ _ _ _ _ _ _ _ He). simpl ch_id. rewrite Hid.
  reflexivity.
Qed.

(** ** Responses are not expected *)

(** Claim C10: an inbound [channel/response] envelope fails validation,
    whatever its session id and origin: the channel stays as it is, no
    callback runs and nothing is posted (only the legacy warning may be
    logged).  The channel record has no table of pending requests. *)
Theorem channel_response_ignored cid cto pm legacy st e fs :
  ev_data e = JObj fs ->
  field_lookup "type" fs = JStr "channel/response" ->
  fst (outcome (handleEvents cid cto pm legacy e st)) = st
  /\ only_console_error (snd (outcome (handleEvents cid cto pm legacy e st))).
Proof.
  intros He Ht.
  destruct (handleEvents_cases cid cto pm legacy e st)
    as [[_ ->]|[[_ [->| ->]]|[_ [Hv _]]]]; simpl; try (split; [reflexivity|]; repeat constructor).
  destruct (isValidMessageEvent_true _ _ _ _ _ _ Hv) as (fs' & He' & _ & _ & _ & Hty).
  rewrite He in He'. injection He' as <-. rewrite Ht in Hty. discriminate.
Qed.

(** ** Frame properties: what a computation leaves alone *)

Definition preserves {X A} (proj : ChannelsNodeChannel -> X) (m : M A) : Prop :=
  forall st, proj (fst (outcome (m st))) = proj st.

Lemma bind_preserves {X A B} (proj : ChannelsNodeChannel -> X) (m : M A) (f : A -> M B) :
  preserves proj m -> (forall a, preserves proj (f a)) -> preserves proj (bind m f).
Proof.
  unfold preserves, bind. intros Hm Hf st. specialize (Hm st).
  destruct (m st) as [a st1 o1|err st1 o1]; simpl in *; [|exact Hm].
  specialize (Hf a st1). destruct (f a st1); simpl in *; congruence.
Qed.

Lemma modify_preserves {X} (proj : ChannelsNodeChannel -> X) f :
  (forall st, proj (f st) = proj st) -> preserves proj (modify f).
Proof. intros H st. apply H. Qed.

Lemma pure_preserves {X A} (proj : ChannelsNodeChannel -> X) (m : M A) :
  (forall st, fst (outcome (m st)) = st) -> preserves proj m.
Proof. intros H st. rewrite H. reflexivity. Qed.

Ltac preserve_tac :=
  repeat match goal with
         | |- preserves _ (bind _ _) => apply bind_preserves; [|intros ?]
         | |- preserves _ (if ?b then _ else _) => destruct b
         | |- preserves _ (modify _) => apply modify_preserves; intros; reflexivity
         | |- preserves _ (ret _) => apply pure_preserves; intros; reflexivity
         | |- preserves _ get_chan => apply pure_preserves; intros; reflexivity
         | |- preserves _ (emit _) => apply pure_preserves; intros; reflexivity
         | |- preserves _ (throw _) => apply pure_preserves; intros; reflexivity
         | |- preserves _ (get ?v ?k) =>
             apply pure_preserves; intros; unfold get; destruct (js_get v k); reflexivity
         | |- preserves _ uuid => intros ?; reflexivity
         end.






(** ** The peer reference [channel.source] *)


(** ** The outbound buffer *)

(** While connected the buffer is empty. *)
Definition buffer_inv (st : ChannelsNodeChannel) : Prop :=
  ch_status st = Connected -> ch_buffer st = [].

(** A computation that submits nothing: what it posts, followed by what
    is left in the buffer, is an order-preserving subsequence of the
    buffer it started from. *)
Definition drains_in_order {A} (m : M A) : Prop :=
  forall st, buffer_inv st ->
    buffer_inv (fst (outcome (m st)))
    /\ posted_app (snd (outcome (m st))) ++ ch_buffer (fst (outcome (m st)))
         `sublist_of` ch_buffer st.

Lemma bind_drains {A B} (m : M A) (f : A -> M B) :
  drains_in_order m -> (forall a, drains_in_order (f a)) -> drains_in_order (bind m f).
Proof.
  unfold drains_in_order, bind. intros Hm Hf st Hi. specialize (Hm st Hi).
  destruct (m st) as [a st1 o1|err st1 o1]; simpl in *; [|exact Hm].
  destruct Hm as [Hi1 Hs1]. specialize (Hf a st1 Hi1).
  destruct (f a st1) as [b st2 o2|err st2 o2]; simpl in *;
    destruct Hf as [Hi2 Hs2]; split; auto;
    rewrite posted_app_app, <- app_assoc;
    (etransitivity; [apply sublist_app; [reflexivity|exact Hs2]|exact Hs1]).
Qed.

Lemma pure_drains {A} (m : M A) :
  (forall st, outcome (m st) = (st, [])) -> drains_in_order m.
Proof. intros H st Hi. rewrite H. simpl. auto. Qed.

Lemma emit_drains e :
  (forall w t m, e <> PostMessage w t m) -> drains_in_order (emit e).
Proof.
  intros Hne st Hi. simpl. split; [exact Hi|].
  destruct e; simpl; try reflexivity. exfalso. eapply Hne. reflexivity.
Qed.

Lemma modify_drains f :
  (forall st, ch_buffer (f st) = ch_buffer st /\ ch_status (f st) = ch_status st) ->
  drains_in_order (modify f).
Proof.
  intros H st Hi. simpl. destruct (H st) as [Hb Hs]. rewrite Hb.
  split; [|reflexivity]. unfold buffer_inv. rewrite Hb, Hs. exact Hi.
Qed.

(** [send] of a handshake or internal message posts no application
    message and leaves buffer and status alone. *)
Lemma send_internal_drains cid cto pm t d :
  is_app_type t = false -> drains_in_order (send cid cto pm t d).
Proof.
  intros Ht st Hi.
  destruct (send_cases cid cto pm t d st)
    as [(Ht' & _)|[E|(w & o & _ & _ & _ & _ & E)]]; [congruence| |].
  - rewrite E. simpl. split; [exact Hi|reflexivity].
  - rewrite E. destruct (pm _ _ _); simpl; [split; [exact Hi|reflexivity]|].
    rewrite Ht. split; [exact Hi|reflexivity].
Qed.

(** While connected, [send] posts the message or, with no session id,
    origin or peer reference, or when [postMessage] throws, does not;
    the buffer stays empty. *)
Lemma send_connected cid cto pm t d st :
  ch_status st = Connected -> ch_buffer st = [] ->
  let r := outcome (send cid cto pm t d st) in
  ch_status (fst r) = Connected /\ ch_buffer (fst r) = []
  /\ posted_app (snd r) `sublist_of` [(t, d)].
Proof.
  intros Hs Hb. cbv zeta.
  destruct (send_cases cid cto pm t d st)
    as [(_ & [H|H] & _)|[E|(w & o & _ & _ & _ & _ & E)]]; [congruence|congruence| |].
  - rewrite E. simpl. auto using sublist_nil_l.
  - rewrite E. destruct (pm _ _ _); simpl; repeat split; auto using sublist_nil_l.
    destruct (is_app_type t); [reflexivity|apply sublist_nil_l].
Qed.

Lemma send_each_connected cid cto pm l st :
  ch_status st = Connected -> ch_buffer st = [] ->
  let r := outcome (send_each cid cto pm l st) in
  ch_status (fst r) = Connected /\ ch_buffer (fst r) = []
  /\ posted_app (snd r) `sublist_of` l.
Proof.
  revert st. induction l as [|[t d] l IH]; intros st Hs Hb.
  - simpl. auto.
  - simpl send_each. unfold bind.
    pose proof (send_connected cid cto pm t d st Hs Hb) as Hsend.
    destruct (send cid cto pm t d st) as [u st1 o1|err st1 o1] eqn:E; simpl in Hsend.
    + destruct Hsend as (Hs1 & Hb1 & Hp1).
      specialize (IH st1 Hs1 Hb1).
      destruct (send_each cid cto pm l st1) as [v st2 o2|err st2 o2]; simpl in *;
        destruct IH as (? & ? & Hp2); repeat split; auto;
        rewrite posted_app_app; change ((t, d) :: l) with ([(t, d)] ++ l);
        apply sublist_app; auto.
    + destruct Hsend as (? & ? & Hp1). repeat split; auto.
      etransitivity; [exact Hp1|]. apply sublist_skip, sublist_nil_l.
Qed.

(** [setConnectionStatus]: entering [connected] empties the buffer and
    posts its messages in order; any other status leaves it alone. *)
Lemma setConnectionStatus_drains cid cto pm s : drains_in_order (setConnectionStatus cid cto pm s).
Proof.
  intros st Hi. unfold setConnectionStatus, modify, emit, bind. simpl.
  destruct s; simpl.
  - split; [|reflexivity]. intros H; discriminate.
  - unfold flush. rewrite get_chan_bind. unfold bind, modify. simpl.
    pose proof (send_each_connected cid cto pm (ch_buffer st)
                  (set_buffer [] (set_status Connected st)) eq_refl eq_refl) as H.
    destruct (send_each cid cto pm (ch_buffer st) (set_buffer [] (set_status Connected st)))
      as [u st1 o1|err st1 o1]; simpl in *; destruct H as (_ & Hb & Hp);
      rewrite Hb, app_nil_r; split; auto; intros _; exact Hb.
  - split; [|reflexivity]. intros H; discriminate.
  - split; [|reflexivity]. intros H; discriminate.
  - split; [|reflexivity]. intros H; discriminate.
Qed.

Lemma get_drains v k : drains_in_order (get v k).
Proof. apply pure_drains. intros st. unfold get. destruct (js_get v k); reflexivity. Qed.

Ltac drains_tac :=
  repeat match goal with
         | |- drains_in_order (bind _ _) => apply bind_drains; [|intros ?]
         | |- drains_in_order (if ?b then _ else _) => destruct b
         | |- drains_in_order (modify _) =>
             apply modify_drains; intros; split; reflexivity
         | |- drains_in_order (ret _) => apply pure_drains; intros; reflexivity
         | |- drains_in_order get_chan => apply pure_drains; intros; reflexivity
         | |- drains_in_order (get _ _) => apply get_drains
         | |- drains_in_order (throw _) => apply pure_drains; intros; reflexivity
         | |- drains_in_order (emit _) => apply emit_drains; intros ? ? ? ?; discriminate
         | |- drains_in_order (setConnectionStatus _ _ _ _) => apply setConnectionStatus_drains
         | |- drains_in_order (send _ _ _ _ _) => apply send_internal_drains; reflexivity
         end.

Lemma handleEvents_drains cid cto pm legacy e : drains_in_order (handleEvents cid cto pm legacy e).
Proof.
  unfold handleEvents, handleValidEvent, handleHandshake, handleOther, updateSource.
  cbv zeta. drains_tac.
  - apply pure_drains. intros st.
    destruct (isValidMessageEvent_pure cid cto e st) as [[b ->]| ->]; reflexivity.
  - destruct (ev_source e); drains_tac.
Qed.

Lemma disconnect_drains cid cto pm : drains_in_order (disconnect cid cto pm).
Proof. unfold disconnect. drains_tac. Qed.





(** ** Ordering of application messages *)


(** ** Buffering in [send] *)

(** Claim C4, as the code has it: an application message sent while the
    status is [connecting] or [reconnecting] is appended to the buffer;
    nothing is posted and the call returns normally.  In [disconnected]
    and [unhealthy] the message is not buffered: with a source, a
    non-empty origin and a truthy id it is posted at once (and [send]
    throws if [postMessage] throws), otherwise it is dropped. *)
Theorem send_buffers_while_connecting cid cto pm t d st :
  is_app_type t = true ->
  ((ch_status st = Connecting \/ ch_status st = Reconnecting) ->
   sendPublic cid cto pm t d st = Ok tt (set_buffer (ch_buffer st ++ [(t, d)]) st) [])
  /\ ((ch_status st = Disconnected \/ ch_status st = Unhealthy) ->
   sendPublic cid cto pm t d st
   = match ch_source st, ch_origin st with
     | Some w, Some o =>
         if truthy (ch_id st) && negb (String.eqb o "") then
           if pm w o (mkMsg (ch_id st) d "sanity/channels" cid (ch_next_uuid st) cto t)
           then Throw postMessage_error (set_next_uuid (S (ch_next_uuid st)) st) []
           else Ok tt (set_next_uuid (S (ch_next_uuid st)) st)
                  [PostMessage w o (mkMsg (ch_id st) d "sanity/channels" cid
                                          (ch_next_uuid st) cto t)]
         else Ok tt st []
     | _, _ => Ok tt st []
     end).
Proof.
  intros Ht. unfold sendPublic, send. rewrite get_chan_bind.
  unfold is_app_type in Ht. rewrite Ht. split.
  - intros [Hs|Hs]; rewrite Hs; reflexivity.
  - intros Hs. assert (Hs' : status_eqb (ch_status st) Connecting
                              || status_eqb (ch_status st) Reconnecting = false)
      by (destruct Hs as [Hs|Hs]; rewrite Hs; reflexivity).
    rewrite Hs'. simpl.
    destruct (ch_source st) as [w|]; [|destruct (ch_origin st); reflexivity].
    destruct (ch_origin st) as [o|]; destruct (truthy (ch_id st)); simpl; try reflexivity.
    destruct (String.eqb o ""); simpl; try reflexivity.
    unfold bind, uuid. simpl. destruct (pm _ _ _); reflexivity.
Qed.

(** ** Teardown *)

(** Claim C5, as the code has it: [disconnect()] on a connection not yet
    [disconnected] sets the status to [disconnected] and reports it to
    [onStatusUpdate]; the line that would notify the peer is commented
    out, so nothing is posted. *)
Theorem disconnect_sets_disconnected cid cto pm st :
  ch_status st <> Disconnected ->
  disconnect cid cto pm st = Ok tt (set_status Disconnected st) [StatusUpdate Disconnected].
Proof.
  intros Hs. unfold disconnect. rewrite get_chan_bind.
  destruct (ch_status st) eqn:E; try congruence; reflexivity.
Qed.

(** ** Malformed input *)

(** Claim C7: a message event whose [data] is [null] or [undefined]
    makes [isValidMessageEvent] read [data.domain] and throw a
    [TypeError] out of the listener, instead of being dropped. *)
Theorem handleEvents_throws_on_missing_data cid cto pm legacy e st :
  legacy e = false ->
  ev_data e = JNull \/ ev_data e = JUndefined ->
  handleEvents cid cto pm legacy e st = Throw "TypeError" st [].
Proof.
  intros Hl Hd. unfold handleEvents. rewrite Hl.
  apply bind_throw. apply isValidMessageEvent_throws. exact Hd.
Qed.

(** The listener once the legacy check and validation have passed. *)
Lemma handleEvents_valid cid cto pm legacy e st :
  legacy e = false -> isValidMessageEvent cid cto e st = Ok true st [] ->
  handleEvents cid cto pm legacy e st = handleValidEvent cid cto pm e st.
Proof.
  intros Hl Hv. unfold handleEvents. rewrite Hl.
  rewrite (bind_ok_nil _ _ _ _ _ Hv). reflexivity.
Qed.

Lemma send_preserves_status cid cto pm t d : preserves ch_status (send cid cto pm t d).
Proof.
  unfold send. preserve_tac.
  destruct (ch_source _); [|preserve_tac].
  destruct (_ && _); [|preserve_tac].
  destruct (ch_origin _); preserve_tac.
Qed.

(** ** The responder's handshake *)


(** Whether a handshake or internal [send] hands its envelope to
    [postMessage]: it needs a peer reference, a truthy session id and a
    non-empty origin. *)
Definition reply_attempted (source : option window) (origin : string) (sid : jsval) : bool :=
  match source with
  | Some _ => truthy sid && negb (String.eqb origin "")
  | None => false
  end.

(** The envelope of such a reply. *)
Definition reply_msg cid cto (sid : jsval) (type : string) (data : jsval) (n : nat) : ProtocolMsg :=
  mkMsg sid data "sanity/channels" cid n cto type.

(** Whether [postMessage] throws on that reply, and what it posts. *)
Definition reply_throws cid cto (pm : window -> string -> ProtocolMsg -> bool)
  (source : option window) (origin : string) (sid : jsval) (type : string) (data : jsval)
  (n : nat) : bool :=
  match source with
  | Some w => reply_attempted source origin sid && pm w origin (reply_msg cid cto sid type data n)
  | None => false
  end.

Definition reply_posts cid cto (pm : window -> string -> ProtocolMsg -> bool)
  (source : option window) (origin : string) (sid : jsval) (type : string) (data : jsval)
  (n : nat) : list (window * string * ProtocolMsg) :=
  match source with
  | Some w =>
      if reply_attempted source origin sid && negb (pm w origin (reply_msg cid cto sid type data n))
      then [(w, origin, reply_msg cid cto sid type data n)]
      else []
  | None => []
  end.

(** Whether a computation ended in a throw. *)
Definition threw {A} (r : result A) : bool :=
  match r with Throw _ _ _ => true | Ok _ _ _ => false end.




Lemma strict_eq_str v s : strict_eq v (JStr s) = true -> v = JStr s.
Proof.
  destruct v; simpl; try discriminate. intros H. apply String.eqb_eq in H. subst. reflexivity.
Qed.

Lemma setConnectionStatus_status cid cto pm s st :
  ch_status (fst (outcome (setConnectionStatus cid cto pm s st))) = s.
Proof.
  unfold setConnectionStatus. destruct s; try reflexivity.
  unfold flush. cbv [bind modify emit get_chan]. simpl.
  pose proof (send_each_connected cid cto pm (ch_buffer st)
                (set_buffer [] (set_status Connected st)) eq_refl eq_refl) as H.
  destruct (send_each cid cto pm (ch_buffer st) (set_buffer [] (set_status Connected st)));
    simpl in *; tauto.
Qed.





(** ** The application handler *)

Lemma not_internal_not_disconnect t :
  isInternalMessage t = false -> strict_eq t (JStr "channel/disconnect") = false.
Proof.
  destruct t; simpl; try reflexivity. intros H. apply orb_false_elim in H. apply H.
Qed.

(** Claim C8, as the code has it.  An accepted application envelope
    (not legacy, valid, from the pinned origin, carrying the session id,
    of a type neither handshake nor internal) invokes [config.onEvent]
    exactly once with [(data.type, data.data)].  A [channel/response]
    envelope answering [data.id] then goes through [send]: it is handed
    to [postMessage] when a peer reference, a truthy session id and an
    origin are known, and posted unless [postMessage] throws, in which
    case the listener throws after the handler ran; otherwise nothing is
    posted.  [config.onEvent] is never invoked for a
    [channel/disconnect] or [channel/response] envelope, nor for a
    handshake envelope carrying a payload. *)
Theorem application_handler_contract cid cto pm legacy :
  (forall st e fs,
     legacy e = false -> ev_data e = JObj fs ->
     isValidMessageEvent cid cto e st = Ok true st [] ->
     origin_is (ch_origin st) (ev_origin e) = true ->
     strict_eq (field_lookup "connectionId" fs) (ch_id st) = true ->
     isHandshakeMessage (field_lookup "type" fs) = false ->
     isInternalMessage (field_lookup "type" fs) = false ->
     let src := match ev_source e with Some s => Some s | None => ch_source st end in
     let r := handleEvents cid cto pm legacy e st in
     handler_calls (snd (outcome r)) = [(field_lookup "type" fs, field_lookup "data" fs)]
     /\ posts (snd (outcome r))
        = reply_posts cid cto pm src (ev_origin e) (ch_id st) "channel/response"
            (JObj [("responseTo", field_lookup "id" fs)]) (ch_next_uuid st)
     /\ threw r
        = reply_throws cid cto pm src (ev_origin e) (ch_id st) "channel/response"
            (JObj [("responseTo", field_lookup "id" fs)]) (ch_next_uuid st))
  /\ (forall st e fs,
        ev_data e = JObj fs ->
        field_lookup "type" fs = JStr "channel/disconnect"
        \/ field_lookup "type" fs = JStr "channel/response"
        \/ (isHandshakeMessage (field_lookup "type" fs) = true
            /\ truthy (field_lookup "data" fs) = true) ->
        handler_calls (snd (outcome (handleEvents cid cto pm legacy e st))) = []).
Proof.
  split.
  - intros st e fs Hl He Hv Ho Hid Hh Hi. cbv zeta.
    rewrite (handleEvents_valid _ _ _ _ _ _ Hl Hv), (handleValidEvent_unfold _ _ _ _ _ _ He).
    cbv zeta. rewrite Ho, andb_false_r, Hh. simpl andb. cbv iota.
    rewrite (handleOther_unfold _ _ _ _ _ _ _ _ He).
    cbn [set_source ch_id ch_origin]. rewrite Hid, Ho, (not_internal_not_disconnect _ Hi).
    simpl andb. cbv iota.
    assert (Eo : ch_origin st = Some (ev_origin e)).
    { destruct (ch_origin st) as [o|]; simpl in Ho; [|discriminate].
      apply String.eqb_eq in Ho. subst. reflexivity. }
    cbv [emit send reply_posts reply_throws reply_attempted reply_msg threw
         bind get_chan modify uuid ret throw].
    cbn [set_source ch_status ch_id ch_origin ch_source].
    rewrite Eo. simpl.
    destruct (ch_status st); simpl;
      destruct (ev_source e) as [s|]; destruct (ch_source st) as [s'|]; simpl;
      destruct (truthy (ch_id st)); simpl;
      destruct (String.eqb (ev_origin e) ""); simpl;
      try destruct (pm _ _ _); simpl; repeat split; reflexivity.
  - intros st e fs He Ht.
    destruct (handleEvents_cases cid cto pm legacy e st)
      as [[_ ->]|[[_ [->| ->]]|[_ [Hv ->]]]]; try reflexivity.
    destruct (isValidMessageEvent_true _ _ _ _ _ _ Hv) as (fs' & He' & _ & _ & _ & Hr).
    rewrite He in He'. injection He' as <-.
    rewrite (handleValidEvent_unfold _ _ _ _ _ _ He). cbv zeta.
    destruct (_ && negb _); [reflexivity|].
    destruct Ht as [Ht|[Ht|[Hh Htr]]].
    + rewrite Ht. simpl. rewrite (handleOther_unfold _ _ _ _ _ _ _ _ He).
      destruct (_ && _); [|reflexivity].
      simpl; first [reflexivity | apply setConnectionStatus_never].
    + rewrite Ht in Hr. discriminate.
    + rewrite Hh, Htr. simpl. apply handleHandshake_never.
Qed.

(** * Further properties of the node

    Beyond the claims: the invariants of a node over its whole life, what
    one inbound event can do, where the listener throws, and what
    [destroy()] leaves behind. *)

(** ** Invariants kept by a computation *)

(** [m] keeps the state invariant [I], and every effect it has satisfies
    [P], from every state satisfying [I]; also when it throws. *)
Definition keeps {A} (I : ChannelsNodeChannel -> Prop) (P : effect -> Prop) (m : M A) : Prop :=
  forall st, I st -> I (fst (outcome (m st))) /\ Forall P (snd (outcome (m st))).

Lemma bind_keeps {A B} I P (m : M A) (f : A -> M B) :
  keeps I P m -> (forall a, keeps I P (f a)) -> keeps I P (bind m f).
Proof.
  unfold keeps, bind. intros Hm Hf st Hi. specialize (Hm st Hi).
  destruct (m st) as [a st1 o1|err st1 o1]; simpl in *; [|exact Hm].
  destruct Hm as [Hi1 Ho1]. specialize (Hf a st1 Hi1).
  destruct (f a st1); simpl in *; destruct Hf as [Hi2 Ho2];
    split; auto; apply Forall_app; auto.
Qed.

Lemma pure_keeps {A} I P (m : M A) :
  (forall st, outcome (m st) = (st, [])) -> keeps I P m.
Proof. intros H st Hi. rewrite H. simpl. auto. Qed.

Lemma modify_keeps I P f : (forall st, I st -> I (f st)) -> keeps I P (modify f).
Proof. intros H st Hi. simpl. auto. Qed.

Lemma emit_keeps I P e : P e -> keeps I P (emit e).
Proof. intros H st Hi. simpl. auto. Qed.

Lemma get_keeps I P v k : keeps I P (get v k).
Proof. apply pure_keeps. intros st. unfold get. destruct (js_get v k); reflexivity. Qed.

Lemma uuid_keeps I P :
  (forall st, I st -> I (set_next_uuid (S (ch_next_uuid st)) st)) -> keeps I P uuid.
Proof. intros H st Hi. simpl. auto. Qed.

Ltac keeps_tac :=
  repeat match goal with
         | |- keeps _ _ (bind _ _) => apply bind_keeps; [|intros ?]
         | |- keeps _ _ (if ?b then _ else _) => destruct b eqn:?
         | |- keeps _ _ (ret _) => apply pure_keeps; intros; reflexivity
         | |- keeps _ _ get_chan => apply pure_keeps; intros; reflexivity
         | |- keeps _ _ (get _ _) => apply get_keeps
         | |- keeps _ _ (modify _) => apply modify_keeps; intros ? ?
         | |- keeps _ _ (emit _) => apply emit_keeps
         | |- keeps _ _ (throw _) => apply pure_keeps; intros; reflexivity
         end.

Lemma send_keeps I P cid cto pm t d :
  (forall st, I st -> is_app_type t = true ->
     ch_status st = Connecting \/ ch_status st = Reconnecting ->
     I (set_buffer (ch_buffer st ++ [(t, d)]) st)) ->
  (forall st w o, I st -> ch_source st = Some w -> ch_origin st = Some o -> o <> "" ->
     truthy (ch_id st) = true ->
     I (set_next_uuid (S (ch_next_uuid st)) st)
     /\ P (PostMessage w o (mkMsg (ch_id st) d "sanity/channels" cid (ch_next_uuid st) cto t))) ->
  keeps I P (send cid cto pm t d).
Proof.
  intros Hbuf Hpost st Hi.
  destruct (send_cases cid cto pm t d st) as [(Ht & Hs & ->)|[->|(w & o & Hw & Ho & Hne & Hid & ->)]];
    simpl; auto.
  destruct (Hpost st w o Hi Hw Ho Hne Hid). destruct (pm _ _ _); simpl; auto.
Qed.

Lemma send_each_keeps I P cid cto pm l :
  (forall t d, keeps I P (send cid cto pm t d)) -> keeps I P (send_each cid cto pm l).
Proof.
  intros H. induction l as [|[t d] l IH]; simpl.
  - apply pure_keeps. reflexivity.
  - apply bind_keeps; auto.
Qed.

(** ** Where the node posts, and what *)

(** The origin of an event carrying a [handshake/syn] envelope with
    truthy [data], and the window an event came from. *)
Definition syn_origin (e : MessageEvent) : list string :=
  match ev_data e with
  | JObj fs => if strict_eq (field_lookup "type" fs) (JStr "handshake/syn")
                  && truthy (field_lookup "data" fs)
               then [ev_origin e] else []
  | _ => []
  end.

Definition event_source (e : MessageEvent) : list window :=
  match ev_source e with Some w => [w] | None => [] end.

(** The origins of the accepted [handshake/syn] events of a run, and the
    windows its accepted events came from. *)
Definition syn_origins cid cto pm legacy (cs : list node_call) : list string :=
  flat_map syn_origin (heard_events cid cto pm legacy cs).

Definition senders cid cto pm legacy (cs : list node_call) : list window :=
  flat_map event_source (heard_events cid cto pm legacy cs).

(** The channel record points only at origins in [L] and windows in [W],
    and its status is one this node sets. *)
Definition node_inv (L : list string) (W : list window) (st : ChannelsNodeChannel) : Prop :=
  (forall o, ch_origin st = Some o -> In o L)
  /\ (forall w, ch_source st = Some w -> In w W)
  /\ ch_status st <> Reconnecting /\ ch_status st <> Unhealthy.

Definition effect_ok cid cto (L : list string) (W : list window) (e : effect) : Prop :=
  match e with
  | PostMessage w o m =>
      In o L /\ In w W /\ o <> ""
      /\ msg_domain m = "sanity/channels" /\ msg_from m = cid /\ msg_to m = cto
      /\ truthy (msg_connectionId m) = true
  | StatusUpdate s => s <> Reconnecting /\ s <> Unhealthy
  | _ => True
  end.

Lemma send_node_inv cid cto pm L W t d : keeps (node_inv L W) (effect_ok cid cto L W) (send cid cto pm t d).
Proof.
  apply send_keeps.
  - intros st Hi _ _. exact Hi.
  - intros st w o (HL & HW & Hs) Hw Ho Hne Hid. split; [exact (conj HL (conj HW Hs))|].
    simpl. repeat split; auto.
Qed.

Lemma setConnectionStatus_node_inv cid cto pm L W s :
  s <> Reconnecting -> s <> Unhealthy ->
  keeps (node_inv L W) (effect_ok cid cto L W) (setConnectionStatus cid cto pm s).
Proof.
  intros H1 H2. unfold setConnectionStatus, flush. keeps_tac.
  - destruct H as (HL & HW & _). split; [exact HL|split; [exact HW|auto]].
  - simpl. auto.
  - destruct H as (HL & HW & Hs). split; [exact HL|split; [exact HW|exact Hs]].
  - apply send_each_keeps. intros. apply send_node_inv.
Qed.

Lemma handleHandshake_node_inv cid cto pm L W e t p :
  (strict_eq t (JStr "handshake/syn") = true -> In (ev_origin e) L) ->
  keeps (node_inv L W) (effect_ok cid cto L W) (handleHandshake cid cto pm e t p).
Proof.
  intros Hsyn. unfold handleHandshake. keeps_tac;
    try apply send_node_inv; try (apply setConnectionStatus_node_inv; discriminate).
  - destruct H as (HL & HW & Hs). split; [|split; [exact HW|exact Hs]].
    simpl. intros o [= <-]. auto.
  - destruct H as (HL & HW & Hs). split; [exact HL|split; [exact HW|exact Hs]].
Qed.

Lemma handleOther_node_inv cid cto pm L W e t p :
  keeps (node_inv L W) (effect_ok cid cto L W) (handleOther cid cto pm e t p).
Proof.
  unfold handleOther. cbv zeta. keeps_tac;
    try apply send_node_inv; try (apply setConnectionStatus_node_inv; discriminate).
  simpl. exact I.
Qed.

Lemma handleEvents_node_inv cid cto pm legacy L W e st :
  (accepts cid cto legacy st e = true ->
   incl (syn_origin e) L /\ incl (event_source e) W) ->
  node_inv L W st ->
  node_inv L W (fst (outcome (handleEvents cid cto pm legacy e st)))
  /\ Forall (effect_ok cid cto L W) (snd (outcome (handleEvents cid cto pm legacy e st))).
Proof.
  intros Hacc Hi.
  destruct (handleEvents_cases cid cto pm legacy e st)
    as [[_ ->]|[[_ [->| ->]]|[Hl [Hv ->]]]];
    try (simpl; split; [exact Hi|repeat constructor]).
  destruct (isValidMessageEvent_true _ _ _ _ _ _ Hv) as (fs & He & _).
  rewrite (handleValidEvent_unfold _ _ _ _ _ _ He). cbv zeta.
  destruct (origin_truthy (ch_origin st) && negb (origin_is (ch_origin st) (ev_origin e)))
    eqn:Eo; [simpl; split; [exact Hi|constructor]|].
  assert (Ha : accepts cid cto legacy st e = true)
    by (unfold accepts; rewrite Hl, Hv, Eo; reflexivity).
  destruct (Hacc Ha) as [HL HW].
  set (st1 := set_source _ st).
  assert (Hi1 : node_inv L W st1).
  { destruct Hi as (HL0 & HW0 & Hs). split; [exact HL0|split; [|exact Hs]].
    subst st1. simpl. destruct (ev_source e) as [s|] eqn:Es; auto.
    intros w [= <-]. apply HW. unfold event_source. rewrite Es. left. reflexivity. }
  destruct (isHandshakeMessage (field_lookup "type" fs) && truthy (field_lookup "data" fs))
    eqn:Hh.
  - apply handleHandshake_node_inv; [|exact Hi1].
    intros Ht. apply HL. unfold syn_origin. rewrite He, Ht.
    apply andb_prop in Hh. destruct Hh as [_ Hp]. rewrite Hp. left. reflexivity.
  - apply handleOther_node_inv. exact Hi1.
Qed.

Lemma disconnect_node_inv cid cto pm L W :
  keeps (node_inv L W) (effect_ok cid cto L W) (disconnect cid cto pm).
Proof.
  unfold disconnect. keeps_tac. apply setConnectionStatus_node_inv; discriminate.
Qed.

Lemma accepted_events_cons cid cto pm legacy n c cs :
  accepted_events cid cto pm legacy n (c :: cs)
  = match c with
    | WindowMessage e => if node_listening n && accepts cid cto legacy (node_channel n) e
                         then [e] else []
    | _ => []
    end ++ accepted_events cid cto pm legacy (fst (call_node cid cto pm legacy c n)) cs.
Proof. reflexivity. Qed.

Lemma call_nodes_node_inv cid cto pm legacy L W cs : forall n,
  incl (flat_map syn_origin (accepted_events cid cto pm legacy n cs)) L ->
  incl (flat_map event_source (accepted_events cid cto pm legacy n cs)) W ->
  node_inv L W (node_channel n) ->
  node_inv L W (node_channel (fst (call_nodes cid cto pm legacy n cs)))
  /\ Forall (effect_ok cid cto L W) (snd (call_nodes cid cto pm legacy n cs)).
Proof.
  induction cs as [|c cs IH]; intros n HL HW Hi; [simpl; auto|].
  rewrite accepted_events_cons, !flat_map_app in HL, HW.
  assert (Hc : node_inv L W (node_channel (fst (call_node cid cto pm legacy c n)))
               /\ Forall (effect_ok cid cto L W) (snd (call_node cid cto pm legacy c n))).
  { destruct c as [t d| |e]; simpl.
    - unfold node_send, sendPublic.
      destruct (send_node_inv cid cto pm L W t d (node_channel n) Hi).
      destruct (outcome _); simpl in *; auto.
    - unfold destroy.
      destruct (disconnect_node_inv cid cto pm L W (node_channel n) Hi).
      destruct (disconnect _ _ _ _); simpl in *; auto.
    - unfold dispatch. destruct (node_listening n) eqn:Hlis; [|simpl; auto].
      destruct (handleEvents_node_inv cid cto pm legacy L W e (node_channel n)) as [H1 H2];
        [|exact Hi|destruct (outcome _); simpl in *; auto].
      intros Hacc. simpl in HL, HW. rewrite Hacc in HL, HW. simpl in HL, HW.
      rewrite app_nil_r in HL, HW.
      split; intros x Hx; [apply HL|apply HW]; apply in_or_app; left; exact Hx. }
  simpl call_nodes.
  assert (HL' : incl (flat_map syn_origin (accepted_events cid cto pm legacy
                                             (fst (call_node cid cto pm legacy c n)) cs)) L).
  { intros o Ho. apply HL. apply in_or_app. right. exact Ho. }
  assert (HW' : incl (flat_map event_source (accepted_events cid cto pm legacy
                                               (fst (call_node cid cto pm legacy c n)) cs)) W).
  { intros w Hw. apply HW. apply in_or_app. right. exact Hw. }
  destruct (call_node cid cto pm legacy c n) as [n1 o1]. simpl in Hc, HL', HW'.
  destruct Hc as [Hi1 Ho1].
  destruct (IH n1 HL' HW' Hi1) as [Hi2 Ho2].
  destruct (call_nodes cid cto pm legacy n1 cs). simpl in *. split; auto.
  apply Forall_app. auto.
Qed.

(** Every run of a node keeps the invariant for the origins and windows
    of the events it accepted. *)
Lemma lifecycle_node_inv cid cto pm legacy cs :
  let r := lifecycle cid cto pm legacy cs in
  node_inv (syn_origins cid cto pm legacy cs) (senders cid cto pm legacy cs) (node_channel (fst r))
  /\ Forall (effect_ok cid cto (syn_origins cid cto pm legacy cs) (senders cid cto pm legacy cs))
       (snd r).
Proof.
  unfold lifecycle, syn_origins, senders, heard_events.
  destruct (createChannelsNode cid cto pm) as [n0 o0] eqn:E0.
  assert (Hn0 : n0 = mkNodeState true (set_status Connecting channel0)
                /\ o0 = [StatusUpdate Connecting]).
  { unfold createChannelsNode, initialise in E0. simpl in E0. injection E0 as <- <-. auto. }
  destruct Hn0 as [-> ->]. simpl fst.
  assert (H0 : forall L W, node_inv L W (set_status Connecting channel0)).
  { intros L W. split; [discriminate|split; [discriminate|split; discriminate]]. }
  destruct (call_nodes_node_inv cid cto pm legacy _ _ cs
              (mkNodeState true (set_status Connecting channel0))
              (fun _ H => H) (fun _ H => H) (H0 _ _)) as [Hi Ho].
  destruct (call_nodes _ _ _ _ _ _). simpl in *. split; [exact Hi|].
  constructor; [split; discriminate|exact Ho].
Qed.

Lemma Forall_posts (P : effect -> Prop) (Q : window * string * ProtocolMsg -> Prop) out :
  (forall w o m, P (PostMessage w o m) -> Q (w, o, m)) ->
  Forall P out -> Forall Q (posts out).
Proof.
  intros H. induction 1 as [|x out Hx _ IH]; [constructor|].
  destruct x; simpl; auto.
Qed.

Lemma Forall_status_updates (P : effect -> Prop) (Q : ChannelStatus -> Prop) out :
  (forall s, P (StatusUpdate s) -> Q s) ->
  Forall P out -> Forall Q (status_updates out).
Proof.
  intros H. induction 1 as [|x out Hx _ IH]; [constructor|].
  destruct x; simpl; auto.
Qed.

(** The node posts only to the origin of a [handshake/syn] event its
    listener accepted, and only to a window from which its listener
    accepted an event. *)
Theorem posts_only_to_handshake_origins cid cto pm legacy cs :
  Forall (fun p => In p.1.2 (syn_origins cid cto pm legacy cs)
                   /\ In p.1.1 (senders cid cto pm legacy cs))
    (posts (snd (lifecycle cid cto pm legacy cs))).
Proof.
  destruct (lifecycle_node_inv cid cto pm legacy cs) as [_ Ho].
  eapply Forall_posts; [|exact Ho]. simpl. intros w o m (H1 & H2 & _). auto.
Qed.

(** Every posted envelope is a current-protocol envelope of this node. *)
Theorem posted_envelopes_well_formed cid cto pm legacy cs :
  Forall (fun p => p.1.2 <> "" /\ msg_domain p.2 = "sanity/channels"
                   /\ msg_from p.2 = cid /\ msg_to p.2 = cto
                   /\ truthy (msg_connectionId p.2) = true)
    (posts (snd (lifecycle cid cto pm legacy cs))).
Proof.
  destruct (lifecycle_node_inv cid cto pm legacy cs) as [_ Ho].
  eapply Forall_posts; [|exact Ho]. simpl. intros w o m (_ & _ & H). exact H.
Qed.

Theorem never_reconnecting_or_unhealthy cid cto pm legacy cs :
  let r := lifecycle cid cto pm legacy cs in
  ch_status (node_channel (fst r)) <> Reconnecting
  /\ ch_status (node_channel (fst r)) <> Unhealthy
  /\ Forall (fun s => s <> Reconnecting /\ s <> Unhealthy) (status_updates (snd r)).
Proof.
  destruct (lifecycle_node_inv cid cto pm legacy cs) as [(_ & _ & H1 & H2) Ho].
  split; [exact H1|split; [exact H2|]].
  eapply Forall_status_updates; [|exact Ho]. simpl. auto.
Qed.

(** ** Relations between the state before and after a computation *)

Section Holds.

(** [R st st' out]: what a computation may do, from [st] to [st']
    with the effects [out]; doing nothing is allowed and the relation
    composes. *)
Variable R : ChannelsNodeChannel -> ChannelsNodeChannel -> list effect -> Prop.
Hypothesis R_trans : forall st st1 st2 o1 o2, R st st1 o1 -> R st1 st2 o2 -> R st st2 (o1 ++ o2).

Definition holds {A} (m : M A) : Prop :=
  forall st, R st (fst (outcome (m st))) (snd (outcome (m st))).

Lemma bind_holds {A B} (m : M A) (f : A -> M B) :
  holds m -> (forall a, holds (f a)) -> holds (bind m f).
Proof.
  unfold holds, bind. intros Hm Hf st. specialize (Hm st).
  destruct (m st) as [a st1 o1|err st1 o1]; simpl in *; [|exact Hm].
  specialize (Hf a st1). destruct (f a st1); simpl in *; eauto.
Qed.

Lemma pure_holds {A} (m : M A) :
  (forall st, R st st []) -> (forall st, outcome (m st) = (st, [])) -> holds m.
Proof. intros Hr H st. rewrite H. apply Hr. Qed.

End Holds.

Ltac holds_tac tr rf :=
  repeat match goal with
         | |- holds _ (bind _ _) => apply (bind_holds _ tr); [|intros ?]
         | |- holds _ (if ?b then _ else _) => destruct b eqn:?
         | |- holds _ (ret _) => apply pure_holds; [exact rf|intros; reflexivity]
         | |- holds _ get_chan => apply pure_holds; [exact rf|intros; reflexivity]
         | |- holds _ (get ?v ?k) =>
             apply pure_holds; [exact rf|intros; unfold get; destruct (js_get v k); reflexivity]
         | |- holds _ (modify _) => intros ?
         | |- holds _ (emit _) => intros ?
         | |- holds _ uuid => intros ?
         end.

(** Effects that are not callbacks. *)
Definition no_callback (e : effect) : Prop :=
  match e with StatusUpdate _ | OnEvent _ _ => False | _ => True end.

Lemma no_callback_lists out :
  Forall no_callback out -> handler_calls out = [] /\ status_updates out = [].
Proof.
  induction 1 as [|x out Hx _ [IH1 IH2]]; [auto|].
  destruct x; simpl in *; try contradiction; auto.
Qed.

Lemma send_no_callback cid cto pm t d :
  keeps (fun _ => True) no_callback (send cid cto pm t d).
Proof. apply send_keeps; simpl; auto. Qed.

Lemma send_each_no_callback cid cto pm l :
  keeps (fun _ => True) no_callback (send_each cid cto pm l).
Proof. apply send_each_keeps. intros. apply send_no_callback. Qed.

Lemma flush_no_callback cid cto pm : keeps (fun _ => True) no_callback (flush cid cto pm).
Proof. unfold flush. keeps_tac; auto. apply send_each_no_callback. Qed.

(** [setConnectionStatus(next)] calls [onStatusUpdate(next)] once, and
    no other callback. *)
Lemma setConnectionStatus_callbacks cid cto pm s st :
  let r := outcome (setConnectionStatus cid cto pm s st) in
  ch_status (fst r) = s /\ status_updates (snd r) = [s] /\ handler_calls (snd r) = [].
Proof.
  cbv zeta. split; [apply setConnectionStatus_status|].
  unfold setConnectionStatus. cbv [bind modify emit]. simpl.
  destruct s; simpl; auto.
  destruct (flush_no_callback cid cto pm (set_status Connected st) I) as [_ Hf].
  destruct (no_callback_lists _ Hf) as [H1 H2].
  destruct (flush cid cto pm (set_status Connected st)); simpl in *; rewrite ?H1, ?H2; auto.
Qed.

(** *** Status reporting *)

Definition reported (st st' : ChannelsNodeChannel) (out : list effect) : Prop :=
  ch_status st' = default (ch_status st) (last (status_updates out)).

Lemma reported_trans st st1 st2 o1 o2 :
  reported st st1 o1 -> reported st1 st2 o2 -> reported st st2 (o1 ++ o2).
Proof.
  unfold reported. intros H1 H2. rewrite status_updates_app, last_app, H2, H1.
  destruct (last (status_updates o2)); reflexivity.
Qed.

Lemma reported_refl st : reported st st [].
Proof. reflexivity. Qed.

Lemma send_reported cid cto pm t d : holds reported (send cid cto pm t d).
Proof.
  intros st. unfold reported.
  destruct (send_no_callback cid cto pm t d st I) as [_ Hf].
  destruct (no_callback_lists _ Hf) as [_ ->]. simpl.
  apply send_preserves_status.
Qed.

Lemma setConnectionStatus_reported cid cto pm s : holds reported (setConnectionStatus cid cto pm s).
Proof.
  intros st. unfold reported.
  destruct (setConnectionStatus_callbacks cid cto pm s st) as (H1 & H2 & _).
  rewrite H1, H2. reflexivity.
Qed.

Ltac reported_tac :=
  holds_tac reported_trans reported_refl;
  try apply send_reported; try apply setConnectionStatus_reported;
  try reflexivity.

Lemma handleEvents_reported cid cto pm legacy e : holds reported (handleEvents cid cto pm legacy e).
Proof.
  unfold handleEvents, handleValidEvent, handleHandshake, handleOther, updateSource.
  cbv zeta. reported_tac.
  - apply pure_holds; [exact reported_refl|]. intros st.
    destruct (isValidMessageEvent_pure cid cto e st) as [[b ->]| ->]; reflexivity.
  - destruct (ev_source e); reported_tac.
Qed.

Lemma disconnect_reported cid cto pm : holds reported (disconnect cid cto pm).
Proof. unfold disconnect. reported_tac. Qed.

Lemma call_nodes_reported cid cto pm legacy cs : forall n,
  reported (node_channel n) (node_channel (fst (call_nodes cid cto pm legacy n cs)))
    (snd (call_nodes cid cto pm legacy n cs)).
Proof.
  induction cs as [|c cs IH]; intros n; [reflexivity|].
  assert (Hc : reported (node_channel n) (node_channel (fst (call_node cid cto pm legacy c n)))
                 (snd (call_node cid cto pm legacy c n))).
  { destruct c as [t d| |e]; simpl.
    - unfold node_send, sendPublic. pose proof (send_reported cid cto pm t d (node_channel n)).
      destruct (outcome _); exact H.
    - unfold destroy. pose proof (disconnect_reported cid cto pm (node_channel n)).
      destruct (disconnect _ _ _ _); exact H.
    - unfold dispatch. destruct (node_listening n); [|reflexivity].
      pose proof (handleEvents_reported cid cto pm legacy e (node_channel n)).
      destruct (outcome _); exact H. }
  simpl call_nodes. destruct (call_node cid cto pm legacy c n) as [n1 o1]. simpl in Hc.
  specialize (IH n1). destruct (call_nodes cid cto pm legacy n1 cs). simpl in *.
  eapply reported_trans; eauto.
Qed.

(** The last status the node reported to [onStatusUpdate] is its
    current status. *)
Theorem last_reported_status_is_current cid cto pm legacy cs :
  last (status_updates (snd (lifecycle cid cto pm legacy cs)))
  = Some (ch_status (node_channel (fst (lifecycle cid cto pm legacy cs)))).
Proof.
  unfold lifecycle, createChannelsNode, initialise. simpl.
  pose proof (call_nodes_reported cid cto pm legacy cs
                (mkNodeState true (set_status Connecting channel0))) as H.
  destruct (call_nodes _ _ _ _ _ _) as [n o]. simpl in *. unfold reported in H.
  rewrite H. change (Connecting :: status_updates o) with ([Connecting] ++ status_updates o).
  rewrite last_app. destruct (last (status_updates o)); reflexivity.
Qed.

(** *** The buffer under inbound events *)

Definition buffer_kept_or_emptied (st st' : ChannelsNodeChannel) (_ : list effect) : Prop :=
  ch_buffer st' = ch_buffer st \/ ch_buffer st' = [].

Lemma buffer_kept_or_emptied_trans st st1 st2 o1 o2 :
  buffer_kept_or_emptied st st1 o1 -> buffer_kept_or_emptied st1 st2 o2 ->
  buffer_kept_or_emptied st st2 (o1 ++ o2).
Proof. unfold buffer_kept_or_emptied. intros [H1|H1] [H2|H2]; rewrite ?H2, ?H1; auto. Qed.

Lemma buffer_kept_or_emptied_refl st : buffer_kept_or_emptied st st [].
Proof. left. reflexivity. Qed.

(** A handshake or internal message is never buffered. *)
Lemma send_internal_keeps_buffer cid cto pm t d :
  is_app_type t = false -> preserves ch_buffer (send cid cto pm t d).
Proof.
  intros Ht st.
  destruct (send_cases cid cto pm t d st) as [(Ht' & _)|[->|(w & o & _ & _ & _ & _ & ->)]];
    [congruence|reflexivity|destruct (pm _ _ _); reflexivity].
Qed.

(** [setConnectionStatus] empties the buffer (entering [connected]) or
    leaves it alone. *)
Lemma setConnectionStatus_buffer cid cto pm s :
  holds buffer_kept_or_emptied (setConnectionStatus cid cto pm s).
Proof.
  intros st. unfold buffer_kept_or_emptied, setConnectionStatus.
  cbv [bind modify emit]. simpl.
  destruct s; simpl; auto.
  unfold flush. rewrite get_chan_bind. cbv [bind modify]. simpl.
  pose proof (send_each_connected cid cto pm (ch_buffer st)
                (set_buffer [] (set_status Connected st)) eq_refl eq_refl) as H.
  destruct (send_each cid cto pm (ch_buffer st) (set_buffer [] (set_status Connected st)));
    simpl in *; right; tauto.
Qed.

Ltac buffer_tac :=
  holds_tac buffer_kept_or_emptied_trans buffer_kept_or_emptied_refl;
  try apply setConnectionStatus_buffer;
  try (intros ?; left; apply send_internal_keeps_buffer; reflexivity);
  try (left; reflexivity).

(** Inbound events never add to the buffer: after [handleEvents] it is
    as before, or empty because the node entered [connected] and flushed
    it. *)
Theorem inbound_events_never_enqueue cid cto pm legacy e st :
  ch_buffer (fst (outcome (handleEvents cid cto pm legacy e st))) = ch_buffer st
  \/ ch_buffer (fst (outcome (handleEvents cid cto pm legacy e st))) = [].
Proof.
  revert st. change (holds buffer_kept_or_emptied (handleEvents cid cto pm legacy e)).
  unfold handleEvents, handleValidEvent, handleHandshake, handleOther, updateSource.
  cbv zeta. buffer_tac.
  - apply pure_holds; [exact buffer_kept_or_emptied_refl|]. intros st.
    destruct (isValidMessageEvent_pure cid cto e st) as [[b ->]| ->]; reflexivity.
  - destruct (ev_source e); buffer_tac.
Qed.

(** *** No buffered message while connected *)

Lemma send_buffer_inv cid cto pm t d st :
  buffer_inv st -> buffer_inv (fst (outcome (send cid cto pm t d st))).
Proof.
  intros Hi.
  destruct (send_cases cid cto pm t d st) as [(_ & Hs & ->)|[->|(w & o & _ & _ & _ & _ & ->)]];
    simpl; [|auto|destruct (pm _ _ _); exact Hi].
  unfold buffer_inv. simpl. destruct Hs as [-> | ->]; discriminate.
Qed.

Lemma call_nodes_buffer_inv cid cto pm legacy cs : forall n,
  buffer_inv (node_channel n) ->
  buffer_inv (node_channel (fst (call_nodes cid cto pm legacy n cs))).
Proof.
  induction cs as [|c cs IH]; intros n Hi; [exact Hi|].
  assert (Hc : buffer_inv (node_channel (fst (call_node cid cto pm legacy c n)))).
  { destruct c as [t d| |e]; simpl.
    - unfold node_send, sendPublic. pose proof (send_buffer_inv cid cto pm t d _ Hi).
      destruct (outcome _); exact H.
    - unfold destroy. destruct (disconnect_drains cid cto pm (node_channel n) Hi) as [H _].
      destruct (disconnect _ _ _ _); exact H.
    - unfold dispatch. destruct (node_listening n); [|exact Hi].
      destruct (handleEvents_drains cid cto pm legacy e (node_channel n) Hi) as [H _].
      destruct (outcome _); exact H. }
  simpl call_nodes. destruct (call_node cid cto pm legacy c n) as [n1 o1]. simpl in Hc.
  specialize (IH n1 Hc). destruct (call_nodes cid cto pm legacy n1 cs). exact IH.
Qed.

(** Whenever a node is [connected], its outbound buffer is empty. *)
Theorem connected_node_has_empty_buffer cid cto pm legacy cs :
  ch_status (node_channel (fst (lifecycle cid cto pm legacy cs))) = Connected ->
  ch_buffer (node_channel (fst (lifecycle cid cto pm legacy cs))) = [].
Proof.
  unfold lifecycle, createChannelsNode, initialise. simpl.
  pose proof (call_nodes_buffer_inv cid cto pm legacy cs
                (mkNodeState true (set_status Connecting channel0))) as H.
  destruct (call_nodes _ _ _ _ _ _) as [n o]. simpl in *.
  apply H. intros Hs. discriminate.
Qed.

(** *** Flushing without a session *)

Lemma send_each_without_session cid cto pm l st :
  ch_status st = Connected ->
  (truthy (ch_id st) = false \/ origin_truthy (ch_origin st) = false \/ ch_source st = None) ->
  send_each cid cto pm l st = Ok tt st [].
Proof.
  intros Hs Hno. induction l as [|[t d] l IH]; [reflexivity|].
  simpl send_each. unfold bind at 1.
  assert (E : send cid cto pm t d st = Ok tt st []).
  { unfold send. rewrite get_chan_bind, Hs. simpl. rewrite andb_false_r. cbv iota.
    destruct Hno as [H|[H|H]].
    - destruct (ch_source st); [|reflexivity]. rewrite H. reflexivity.
    - destruct (ch_source st); [|reflexivity]. rewrite H, andb_false_r. reflexivity.
    - rewrite H. reflexivity. }
  rewrite E, IH. reflexivity.
Qed.

(** Entering [connected] without a session id, an origin or a peer
    reference empties the buffer and posts nothing: the buffered messages
    are lost. *)
Theorem flush_without_session_drops_buffer cid cto pm st :
  truthy (ch_id st) = false \/ origin_truthy (ch_origin st) = false \/ ch_source st = None ->
  setConnectionStatus cid cto pm Connected st
  = Ok tt (set_buffer [] (set_status Connected st)) [StatusUpdate Connected].
Proof.
  intros Hno. unfold setConnectionStatus, flush. cbv [bind modify emit get_chan]. simpl.
  rewrite send_each_without_session; [reflexivity|reflexivity|exact Hno].
Qed.

(** *** Callbacks per event *)

Definition callbacks (out : list effect) : nat :=
  length (handler_calls out) + length (status_updates out).

Definition silent {A} (m : M A) : Prop := keeps (fun _ => True) no_callback m.

Definition one_callback {A} (m : M A) : Prop :=
  forall st, callbacks (snd (outcome (m st))) <= 1.

Lemma silent_callbacks {A} (m : M A) st : silent m -> callbacks (snd (outcome (m st))) = 0.
Proof.
  intros H. destruct (H st I) as [_ Hf]. destruct (no_callback_lists _ Hf) as [H1 H2].
  unfold callbacks. rewrite H1, H2. reflexivity.
Qed.

Lemma callbacks_app o1 o2 : callbacks (o1 ++ o2) = callbacks o1 + callbacks o2.
Proof. unfold callbacks. rewrite handler_calls_app, status_updates_app, !length_app. lia. Qed.

Lemma bind_silent_one {A B} (m : M A) (f : A -> M B) :
  silent m -> (forall a, one_callback (f a)) -> one_callback (bind m f).
Proof.
  intros Hm Hf st. pose proof (silent_callbacks m st Hm) as H0. unfold bind.
  destruct (m st) as [a st1 o1|err st1 o1]; simpl in *; [|lia].
  specialize (Hf a st1). destruct (f a st1); simpl in *; rewrite callbacks_app; lia.
Qed.

Lemma bind_one_silent {A B} (m : M A) (f : A -> M B) :
  one_callback m -> (forall a, silent (f a)) -> one_callback (bind m f).
Proof.
  intros Hm Hf st. specialize (Hm st). unfold bind.
  destruct (m st) as [a st1 o1|err st1 o1]; simpl in *; [|lia].
  pose proof (silent_callbacks (f a) st1 (Hf a)) as H0.
  destruct (f a st1); simpl in *; rewrite callbacks_app; lia.
Qed.

Lemma silent_one {A} (m : M A) : silent m -> one_callback m.
Proof. intros H st. rewrite (silent_callbacks m st H). lia. Qed.

Lemma setConnectionStatus_one cid cto pm s : one_callback (setConnectionStatus cid cto pm s).
Proof.
  intros st. destruct (setConnectionStatus_callbacks cid cto pm s st) as (_ & H1 & H2).
  unfold callbacks. rewrite H1, H2. simpl. lia.
Qed.

Lemma emit_one e : one_callback (emit e).
Proof. intros st. destruct e; simpl; unfold callbacks; simpl; lia. Qed.

Lemma isValidMessageEvent_silent cid cto e : silent (isValidMessageEvent cid cto e).
Proof.
  apply pure_keeps. intros st.
  destruct (isValidMessageEvent_pure cid cto e st) as [[b ->]| ->]; reflexivity.
Qed.

Lemma updateSource_silent e : silent (updateSource e).
Proof. intros st _. rewrite updateSource_spec. simpl. auto. Qed.

Ltac silent_tac :=
  unfold silent; keeps_tac;
  first [ exact I | apply send_no_callback | apply send_each_no_callback
        | apply flush_no_callback | apply isValidMessageEvent_silent
        | apply updateSource_silent ].

Ltac one_tac :=
  repeat match goal with
         | |- one_callback (bind _ _) =>
             first [ apply bind_silent_one; [solve [silent_tac]|intros ?]
                   | apply bind_one_silent; [|intros ?; solve [silent_tac]] ]
         | |- one_callback (if ?b then _ else _) => destruct b eqn:?
         | |- one_callback (setConnectionStatus _ _ _ _) => apply setConnectionStatus_one
         | |- one_callback (emit _) => apply emit_one
         | |- one_callback _ => apply silent_one; solve [silent_tac]
         end.

(** One inbound event calls back at most once: [onEvent] once, or
    [onStatusUpdate] once, or neither. *)
Theorem at_most_one_callback_per_event cid cto pm legacy e st :
  length (handler_calls (snd (outcome (handleEvents cid cto pm legacy e st))))
  + length (status_updates (snd (outcome (handleEvents cid cto pm legacy e st)))) <= 1.
Proof.
  revert st. change (one_callback (handleEvents cid cto pm legacy e)).
  unfold handleEvents, handleValidEvent, handleHandshake, handleOther.
  cbv zeta. one_tac.
Qed.

(** *** Before an origin is pinned *)

(** Until a [handshake/syn] has pinned an origin, no inbound event
    reaches [config.onEvent]: the application branch requires
    [e.origin === channel.origin], and [channel.origin] is [null]. *)
Theorem no_handler_before_origin_pinned cid cto pm legacy e st :
  ch_origin st = None ->
  handler_calls (snd (outcome (handleEvents cid cto pm legacy e st))) = [].
Proof.
  intros Ho.
  destruct (handleEvents_cases cid cto pm legacy e st)
    as [[_ ->]|[[_ [->| ->]]|[_ [Hv ->]]]]; try reflexivity.
  destruct (isValidMessageEvent_true _ _ _ _ _ _ Hv) as (fs & He & _).
  rewrite (handleValidEvent_unfold _ _ _ _ _ _ He). cbv zeta.
  rewrite Ho. simpl.
  destruct (_ && truthy _); [apply handleHandshake_never|].
  rewrite (handleOther_unfold _ _ _ _ _ _ _ _ He). simpl ch_origin. rewrite Ho.
  simpl origin_is. rewrite andb_false_r. reflexivity.
Qed.

(** *** The session: [channel.id] and [channel.origin] *)

Definition session (st : ChannelsNodeChannel) : jsval * option string :=
  (ch_id st, ch_origin st).

Lemma send_preserves_session cid cto pm t d : preserves session (send cid cto pm t d).
Proof.
  unfold send. preserve_tac.
  destruct (ch_source _); [|preserve_tac].
  destruct (_ && _); [|preserve_tac].
  destruct (ch_origin _); preserve_tac.
Qed.

Lemma send_each_preserves_session cid cto pm l : preserves session (send_each cid cto pm l).
Proof.
  induction l as [|[t d] l IH]; simpl; preserve_tac.
  - apply send_preserves_session.
  - exact IH.
Qed.

Lemma setConnectionStatus_preserves_session cid cto pm s :
  preserves session (setConnectionStatus cid cto pm s).
Proof.
  unfold setConnectionStatus, flush. preserve_tac. apply send_each_preserves_session.
Qed.

Lemma handleOther_preserves_session cid cto pm e t p :
  preserves session (handleOther cid cto pm e t p).
Proof.
  unfold handleOther. cbv zeta. preserve_tac;
    first [apply setConnectionStatus_preserves_session | apply send_preserves_session].
Qed.

Lemma handleHandshake_not_syn_preserves_session cid cto pm e t p :
  strict_eq t (JStr "handshake/syn") = false ->
  preserves session (handleHandshake cid cto pm e t p).
Proof.
  intros Ht. unfold handleHandshake. rewrite Ht. preserve_tac.
  apply setConnectionStatus_preserves_session.
Qed.

(** The session id and the pinned origin change on an inbound event only
    when it is an accepted [handshake/syn] envelope carrying data. *)
Theorem session_changes_only_on_syn cid cto pm legacy e st :
  session (fst (outcome (handleEvents cid cto pm legacy e st))) <> session st ->
  legacy e = false
  /\ isValidMessageEvent cid cto e st = Ok true st []
  /\ exists fs, ev_data e = JObj fs
       /\ field_lookup "type" fs = JStr "handshake/syn"
       /\ truthy (field_lookup "data" fs) = true.
Proof.
  intros Hch.
  destruct (handleEvents_cases cid cto pm legacy e st)
    as [[_ E]|[[_ [E|E]]|[Hl [Hv E]]]]; rewrite E in *; simpl in Hch;
    try (exfalso; exact (Hch eq_refl)).
  split; [exact Hl|split; [exact Hv|]].
  destruct (isValidMessageEvent_true _ _ _ _ _ _ Hv) as (fs & He & _).
  exists fs. split; [exact He|].
  rewrite (handleValidEvent_unfold _ _ _ _ _ _ He) in Hch. cbv zeta in Hch.
  destruct (_ && negb _); [simpl in Hch; exfalso; exact (Hch eq_refl)|].
  set (st1 := set_source _ st) in Hch.
  assert (Hs1 : session st1 = session st) by reflexivity.
  destruct (isHandshakeMessage (field_lookup "type" fs)) eqn:Hh;
    destruct (truthy (field_lookup "data" fs)) eqn:Htr; simpl andb in Hch; cbv iota in Hch.
  - destruct (strict_eq (field_lookup "type" fs) (JStr "handshake/syn")) eqn:Hsyn.
    + split; [apply strict_eq_str; exact Hsyn|reflexivity].
    + rewrite (handleHandshake_not_syn_preserves_session _ _ _ _ _ _ Hsyn st1), Hs1 in Hch.
      exfalso. exact (Hch eq_refl).
  - rewrite (handleOther_preserves_session _ _ _ _ _ _ st1), Hs1 in Hch. exfalso. exact (Hch eq_refl).
  - rewrite (handleOther_preserves_session _ _ _ _ _ _ st1), Hs1 in Hch. exfalso. exact (Hch eq_refl).
  - rewrite (handleOther_preserves_session _ _ _ _ _ _ st1), Hs1 in Hch. exfalso. exact (Hch eq_refl).
Qed.

(** *** Where the listener throws *)

(** The only throw [m] can raise is the error [send] rethrows when
    [postMessage] throws. *)
Definition throws_only_postMessage {A} (pm : window -> string -> ProtocolMsg -> bool)
  (m : M A) : Prop :=
  forall st err st' out, m st = Throw err st' out ->
    err = postMessage_error /\ exists w o msg, pm w o msg = true.

Lemma bind_throws_only {A B} pm (m : M A) (f : A -> M B) :
  throws_only_postMessage pm m -> (forall a, throws_only_postMessage pm (f a)) ->
  throws_only_postMessage pm (bind m f).
Proof.
  intros Hm Hf st err st' out. unfold bind.
  destruct (m st) as [a st1 o1|e1 st1 o1] eqn:E1.
  - destruct (f a st1) as [b st2 o2|e2 st2 o2] eqn:E2; [discriminate|].
    intros [= <- <- <-]. exact (Hf a st1 e2 st2 o2 E2).
  - intros [= <- <- <-]. exact (Hm st e1 st1 o1 E1).
Qed.

Lemma ok_throws_only {A} pm (m : M A) :
  (forall st, exists a st' out, m st = Ok a st' out) -> throws_only_postMessage pm m.
Proof. intros H st err st' out E. destruct (H st) as (a & st1 & o1 & E1). congruence. Qed.

Lemma get_throws_only pm v k : js_get v k <> None -> throws_only_postMessage pm (get v k).
Proof.
  intros H. apply ok_throws_only. intros st. unfold get.
  destruct (js_get v k); [eauto|congruence].
Qed.

Lemma send_throws_only cid cto pm t d : throws_only_postMessage pm (send cid cto pm t d).
Proof.
  intros st err st' out.
  destruct (send_cases cid cto pm t d st)
    as [(_ & _ & ->)|[->|(w & o & _ & _ & _ & _ & ->)]]; try discriminate.
  destruct (pm w o _) eqn:Epm; [|discriminate].
  intros [= <- _ _]. split; [reflexivity|]. eauto.
Qed.

Lemma send_each_throws_only cid cto pm l : throws_only_postMessage pm (send_each cid cto pm l).
Proof.
  induction l as [|[t d] l IH]; simpl.
  - apply ok_throws_only. intros st. eauto.
  - apply bind_throws_only; [apply send_throws_only|intros _; exact IH].
Qed.

Ltac throws_only_tac :=
  repeat match goal with
         | |- throws_only_postMessage _ (bind _ _) => apply bind_throws_only; [|intros ?]
         | |- throws_only_postMessage _ (if ?b then _ else _) => destruct b eqn:?
         | |- throws_only_postMessage _ (ret _) => apply ok_throws_only; intros ?; eauto
         | |- throws_only_postMessage _ get_chan => apply ok_throws_only; intros ?; eauto
         | |- throws_only_postMessage _ (modify _) => apply ok_throws_only; intros ?; eauto
         | |- throws_only_postMessage _ (emit _) => apply ok_throws_only; intros ?; eauto
         | |- throws_only_postMessage _ uuid => apply ok_throws_only; intros ?; eauto
         | |- throws_only_postMessage _ (send _ _ _ _ _) => apply send_throws_only
         | |- throws_only_postMessage _ (send_each _ _ _ _) => apply send_each_throws_only
         | |- throws_only_postMessage _ (get _ _) => apply get_throws_only
         end.

Lemma setConnectionStatus_throws_only cid cto pm s :
  throws_only_postMessage pm (setConnectionStatus cid cto pm s).
Proof. unfold setConnectionStatus, flush. throws_only_tac. Qed.

Lemma truthy_get p k : truthy p = true -> js_get p k <> None.
Proof. destruct p; simpl; congruence. Qed.

Lemma handleHandshake_throws_only cid cto pm e t p :
  truthy p = true -> throws_only_postMessage pm (handleHandshake cid cto pm e t p).
Proof.
  intros Hp. unfold handleHandshake. throws_only_tac;
    try apply setConnectionStatus_throws_only; apply truthy_get; exact Hp.
Qed.

Lemma handleOther_throws_only cid cto pm e t p fs :
  ev_data e = JObj fs -> throws_only_postMessage pm (handleOther cid cto pm e t p).
Proof.
  intros He. unfold handleOther. cbv zeta. rewrite He. throws_only_tac;
    try apply setConnectionStatus_throws_only; discriminate.
Qed.

Lemma isValidMessageEvent_throw_data cid cto e st err st' out :
  isValidMessageEvent cid cto e st = Throw err st' out ->
  ev_data e = JNull \/ ev_data e = JUndefined.
Proof.
  unfold isValidMessageEvent, bind, get, ret, throw.
  destruct (ev_data e); simpl; auto; split_ifs; simpl; discriminate.
Qed.

(** The message listener throws in two ways only: a [TypeError] on a
    message event whose [data] is [null] or [undefined], before anything
    happened; or the error [send] rethrows after [postMessage] threw. *)
Theorem handleEvents_throw_causes cid cto pm legacy e st err st' out :
  handleEvents cid cto pm legacy e st = Throw err st' out ->
  (err = "TypeError" /\ legacy e = false /\ (ev_data e = JNull \/ ev_data e = JUndefined)
   /\ st' = st /\ out = [])
  \/ (err = postMessage_error /\ exists w o msg, pm w o msg = true).
Proof.
  intros H. unfold handleEvents in H. destruct (legacy e) eqn:Hl; [discriminate|].
  destruct (isValidMessageEvent_pure cid cto e st) as [[b Hb]|Hb].
  - rewrite (bind_ok_nil _ _ _ _ _ Hb) in H.
    destruct b; simpl in H; [|discriminate].
    destruct (isValidMessageEvent_true _ _ _ _ _ _ Hb) as (fs & He & _).
    right. rewrite (handleValidEvent_unfold _ _ _ _ _ _ He) in H. cbv zeta in H.
    destruct (_ && negb _); [discriminate|].
    destruct (isHandshakeMessage _ && truthy _) eqn:Hh.
    + apply andb_prop in Hh. destruct Hh as [_ Hp].
      exact (handleHandshake_throws_only cid cto pm e (field_lookup "type" fs) _ Hp _ _ _ _ H).
    + exact (handleOther_throws_only cid cto pm e (field_lookup "type" fs)
               (field_lookup "data" fs) fs He _ _ _ _ H).
  - rewrite (bind_throw _ _ _ _ _ _ Hb) in H. injection H as <- <- <-.
    left. split; [reflexivity|split; [reflexivity|split; [|auto]]].
    exact (isValidMessageEvent_throw_data _ _ _ _ _ _ _ Hb).
Qed.

(** *** After [destroy()] *)

(** [destroy()] sets [disconnected] (reporting it unless it already was)
    and unregisters the listener. *)
Lemma destroy_result cid cto pm n :
  destroy cid cto pm n
  = (mkNodeState false (set_status Disconnected (node_channel n)),
     if status_eqb (ch_status (node_channel n)) Disconnected then []
     else [StatusUpdate Disconnected]).
Proof.
  unfold destroy, disconnect. rewrite get_chan_bind.
  destruct (node_channel n) as [b i o s st u]. simpl.
  destruct st; reflexivity.
Qed.

Lemma after_destroy cid cto pm legacy cs : forall n,
  node_listening n = false -> ch_status (node_channel n) = Disconnected ->
  let r := call_nodes cid cto pm legacy n cs in
  ch_status (node_channel (fst r)) = Disconnected /\ node_listening (fst r) = false
  /\ handler_calls (snd r) = [] /\ status_updates (snd r) = [].
Proof.
  induction cs as [|c cs IH]; intros n Hl Hs; [simpl; auto|].
  assert (Hc : let r := call_node cid cto pm legacy c n in
               ch_status (node_channel (fst r)) = Disconnected /\ node_listening (fst r) = false
               /\ handler_calls (snd r) = [] /\ status_updates (snd r) = []).
  { destruct c as [t d| |e]; simpl.
    - unfold node_send, sendPublic.
      pose proof (send_preserves_status cid cto pm t d (node_channel n)) as Hp.
      destruct (send_no_callback cid cto pm t d (node_channel n) I) as [_ Hf].
      destruct (no_callback_lists _ Hf) as [H1 H2].
      destruct (outcome _). simpl in *. repeat split; congruence.
    - rewrite destroy_result, Hs. simpl. auto.
    - unfold dispatch. rewrite Hl. simpl. auto. }
  simpl call_nodes. destruct (call_node cid cto pm legacy c n) as [n1 o1].
  simpl in Hc. destruct Hc as (Hs1 & Hl1 & Hh1 & Hu1).
  specialize (IH n1 Hl1 Hs1). destruct (call_nodes cid cto pm legacy n1 cs). simpl in *.
  rewrite handler_calls_app, status_updates_app, Hh1, Hu1. tauto.
Qed.

(** After [destroy()] the node never calls [onEvent] or [onStatusUpdate]
    again, whatever the application and the window do, and its status
    stays [disconnected]. *)
Theorem destroy_is_final cid cto pm legacy n cs :
  let r := call_nodes cid cto pm legacy (fst (destroy cid cto pm n)) cs in
  ch_status (node_channel (fst r)) = Disconnected
  /\ handler_calls (snd r) = [] /\ status_updates (snd r) = [].
Proof.
  cbv zeta. rewrite destroy_result.
  destruct (after_destroy cid cto pm legacy cs
              (mkNodeState false (set_status Disconnected (node_channel n))) eq_refl eq_refl)
    as (H1 & _ & H3 & H4).
  auto.
Qed.

(** [destroy()] does not stop the returned [send]: with a session
    established, a message sent afterwards is posted to the peer at
    once, unless [postMessage] throws. *)
Theorem send_after_destroy_still_posts cid cto pm n t d w o :
  truthy (ch_id (node_channel n)) = true ->
  ch_origin (node_channel n) = Some o -> o <> "" -> ch_source (node_channel n) = Some w ->
  pm w o (mkMsg (ch_id (node_channel n)) d "sanity/channels" cid
                (ch_next_uuid (node_channel n)) cto t) = false ->
  posts (snd (node_send cid cto pm t d (fst (destroy cid cto pm n))))
  = [(w, o, mkMsg (ch_id (node_channel n)) d "sanity/channels" cid
                  (ch_next_uuid (node_channel n)) cto t)].
Proof.
  intros Hid Ho Hne Hw Hpm. rewrite destroy_result. unfold node_send, sendPublic, send.
  simpl. rewrite get_chan_bind. simpl. rewrite andb_false_r.
  rewrite Hw, Hid, Ho. unfold origin_truthy. rewrite (string_neqb _ _ Hne).
  simpl. unfold bind, uuid. simpl. rewrite Hpm. reflexivity.
Qed.

(** * Concrete runs: witnesses and counterexamples *)




(** C2: an envelope of the connected session's peer carrying another
    session id does not reach the handler. *)
Lemma session_mismatch_never_reaches_handler_witness :
  strict_eq (JStr "other") (ch_id connected_channel) = false
  /\ handler_calls (snd (outcome (node_step
       (Deliver (app_event studio_origin 7 "other" "m1" "loader/x" (JNum 1))) connected_channel)))
     = [].
Proof.
  split; [vm_compute; reflexivity|].
  eapply (session_mismatch_never_reaches_handler "preview" "studio" opaque_target_throws
            isLegacyHandshakeMessage_spec connected_channel
            (app_event studio_origin 7 "other" "m1" "loader/x" (JNum 1))).
  - reflexivity.
  - vm_compute. reflexivity.
Defined.

(** C3: a handshake envelope from a foreign origin, carrying the session
    id, changes nothing. *)
Lemma origin_pinned_rejects_foreign_witness :
  ch_origin connected_channel = Some studio_origin
  /\ fst (outcome (node_step (Deliver (syn_event evil_origin 9 "k")) connected_channel))
     = connected_channel
  /\ only_console_error
       (snd (outcome (node_step (Deliver (syn_event evil_origin 9 "k")) connected_channel))).
Proof.
  split; [vm_compute; reflexivity|].
  apply (origin_pinned_rejects_foreign "preview" "studio" opaque_target_throws isLegacyHandshakeMessage_spec
           connected_channel (syn_event evil_origin 9 "k") studio_origin).
  - vm_compute. reflexivity.
  - discriminate.
  - discriminate.
Defined.

(** C4: while connecting, a message goes to the buffer. *)
Lemma send_buffers_while_connecting_witness :
  is_app_type "ping" = true
  /\ sendPublic "preview" "studio" opaque_target_throws "ping" (JNum 1) channel0
     = Ok tt (set_buffer [("ping", JNum 1)] channel0) [].
Proof.
  split; [reflexivity|].
  apply (proj1 (send_buffers_while_connecting "preview" "studio" opaque_target_throws
                  "ping" (JNum 1) channel0 eq_refl)).
  left. reflexivity.
Defined.

(** C4 fails as stated: once disconnected, a message is posted at once,
    not buffered. *)
Lemma send_while_disconnected_not_buffered :
  let st := fst (node_run channel0 [Deliver (syn_event studio_origin 7 "k");
                                    Deliver (disconnect_event studio_origin 7 "k")]) in
  ch_status st = Disconnected
  /\ ch_buffer (fst (outcome (node_step (CallSend "ping" (JNum 1)) st))) = []
  /\ posted_app (snd (outcome (node_step (CallSend "ping" (JNum 1)) st))) = [("ping", JNum 1)].
Proof. vm_compute. split; [reflexivity|split; reflexivity]. Qed.

(** C5: disconnecting a connected node. *)
Lemma disconnect_sets_disconnected_witness :
  ch_status connected_channel = Connected
  /\ disconnect "preview" "studio" opaque_target_throws connected_channel
     = Ok tt (set_status Disconnected connected_channel) [StatusUpdate Disconnected].
Proof.
  split; [vm_compute; reflexivity|].
  apply disconnect_sets_disconnected. vm_compute. discriminate.
Defined.

(** C5 fails as stated: [disconnect()] posts nothing to the peer. *)
Lemma disconnect_does_not_notify_peer :
  ch_status connected_channel = Connected
  /\ ch_status (fst (outcome (disconnect "preview" "studio" opaque_target_throws
                                connected_channel))) = Disconnected
  /\ posts (snd (outcome (disconnect "preview" "studio" opaque_target_throws
                           connected_channel))) = [].
Proof. vm_compute. split; [reflexivity|split; reflexivity]. Qed.



(** C7: [window.postMessage(null, '*')] reaches the listener, which
    throws. *)
Lemma handleEvents_throws_on_missing_data_witness :
  isLegacyHandshakeMessage_spec (mkEvent JNull evil_origin (Some 9)) = false
  /\ node_step (Deliver (mkEvent JNull evil_origin (Some 9))) channel0
     = Throw "TypeError" channel0 [].
Proof.
  split; [reflexivity|].
  apply handleEvents_throws_on_missing_data.
  - reflexivity.
  - left. reflexivity.
Defined.

(** C8: an application envelope of the connected session reaches the
    handler once and is answered; a disconnect envelope does not reach
    it. *)
Lemma application_handler_contract_witness :
  handler_calls (snd (outcome (node_step
     (Deliver (app_event studio_origin 7 "k" "m1" "loader/x" (JNum 5))) connected_channel)))
    = [(JStr "loader/x", JNum 5)]
  /\ handler_calls (snd (outcome (node_step
     (Deliver (app_event studio_origin 7 "k" "m2" "channel/disconnect" JNull)) connected_channel)))
    = [].
Proof.
  destruct (application_handler_contract "preview" "studio" opaque_target_throws isLegacyHandshakeMessage_spec)
    as [Ha Hb].
  split.
  - edestruct (Ha connected_channel
                 (app_event studio_origin 7 "k" "m1" "loader/x" (JNum 5))) as [H _].
    + reflexivity.
    + reflexivity.
    + vm_compute. reflexivity.
    + vm_compute. reflexivity.
    + vm_compute. reflexivity.
    + reflexivity.
    + reflexivity.
    + exact H.
  - eapply (Hb connected_channel
              (app_event studio_origin 7 "k" "m2" "channel/disconnect" JNull)).
    + reflexivity.
    + left. reflexivity.
Defined.

(** C8 fails as stated: with no session id (a [handshake/syn] without
    one), an application envelope reaches the handler but no
    [channel/response] is posted. *)
Lemma handler_runs_without_response :
  let r := node_run channel0 [Deliver (syn_event_without_id studio_origin 7);
                              Deliver (app_event_without_session studio_origin 7 "m1"
                                         "loader/x" (JNum 5))] in
  handler_calls (snd r) = [(JStr "loader/x", JNum 5)] /\ posts (snd r) = [].
Proof. vm_compute. split; reflexivity. Qed.



(** C10: a [channel/response] of the connected session is ignored. *)
Lemma channel_response_ignored_witness :
  fst (outcome (node_step
     (Deliver (app_event studio_origin 7 "k" "m1" "channel/response" (JObj []))) connected_channel))
    = connected_channel
  /\ only_console_error (snd (outcome (node_step
     (Deliver (app_event studio_origin 7 "k" "m1" "channel/response" (JObj []))) connected_channel))).
Proof.
  eapply (channel_response_ignored "preview" "studio" opaque_target_throws isLegacyHandshakeMessage_spec
            connected_channel (app_event studio_origin 7 "k" "m1" "channel/response" (JObj []))).
  - reflexivity.
  - reflexivity.
Defined.

(** ** Witnesses of the further properties *)

(** A node that buffered a message before its handshake is connected with
    an empty buffer. *)
Lemma connected_node_has_empty_buffer_witness :
  ch_status (node_channel connected_node) = Connected
  /\ ch_buffer (node_channel connected_node) = [].
Proof.
  split; [vm_compute; reflexivity|].
  apply (connected_node_has_empty_buffer "preview" "studio" opaque_target_throws isLegacyHandshakeMessage_spec
           [NodeSend "ping" (JNum 1);
            WindowMessage (syn_event studio_origin 7 "k");
            WindowMessage (ack_event studio_origin 7 "k")]).
  vm_compute. reflexivity.
Defined.

(** After a [handshake/syn] without an id, entering [connected] loses the
    buffered ["ping"]. *)
Lemma flush_without_session_drops_buffer_witness :
  ch_buffer sessionless_channel = [("ping", JNum 1)]
  /\ setConnectionStatus "preview" "studio" opaque_target_throws Connected sessionless_channel
     = Ok tt (set_buffer [] (set_status Connected sessionless_channel)) [StatusUpdate Connected].
Proof.
  split; [vm_compute; reflexivity|].
  apply flush_without_session_drops_buffer. left. vm_compute. reflexivity.
Defined.

(** An envelope whose [connectionId] is [null], like the fresh channel's
    id, still does not reach the handler before a [handshake/syn]. *)
Lemma no_handler_before_origin_pinned_witness :
  handler_calls (snd (outcome (node_step
    (Deliver (mkEvent (envelope JNull "m1" "loader/x" (JNum 5)) studio_origin (Some 7)))
    channel0))) = [].
Proof.
  apply (no_handler_before_origin_pinned "preview" "studio" opaque_target_throws isLegacyHandshakeMessage_spec).
  reflexivity.
Defined.

(** A [handshake/syn] delivered to the fresh node sets its session. *)
Lemma session_changes_only_on_syn_witness :
  session (fst (outcome (node_step (Deliver (syn_event studio_origin 7 "k")) channel0)))
    <> session channel0
  /\ isLegacyHandshakeMessage_spec (syn_event studio_origin 7 "k") = false.
Proof.
  assert (H : session (fst (outcome (node_step (Deliver (syn_event studio_origin 7 "k")) channel0)))
              <> session channel0) by (vm_compute; discriminate).
  split; [exact H|].
  exact (proj1 (session_changes_only_on_syn "preview" "studio" opaque_target_throws isLegacyHandshakeMessage_spec
                  (syn_event studio_origin 7 "k") channel0 H)).
Defined.

(** A [handshake/syn] from an opaque origin (["null"]) is accepted, and
    the listener throws when it posts the syn-ack. *)
Lemma handleEvents_throw_causes_witness :
  (exists st' out, node_step (Deliver (syn_event "null" 7 "k")) channel0
                   = Throw postMessage_error st' out)
  /\ (exists w o msg, opaque_target_throws w o msg = true).
Proof.
  destruct (node_step (Deliver (syn_event "null" 7 "k")) channel0)
    as [u st' out|err st' out] eqn:E; [vm_compute in E; discriminate|].
  split.
  - vm_compute in E. injection E as <- <- <-. eexists _, _. reflexivity.
  - destruct (handleEvents_throw_causes "preview" "studio" opaque_target_throws
                isLegacyHandshakeMessage_spec _ _ _ _ _ E)
      as [(_ & _ & [Hd|Hd] & _)|(_ & Hx)]; [discriminate Hd|discriminate Hd|exact Hx].
Defined.

(** The connected node, destroyed, still posts a [send]. *)
Lemma send_after_destroy_still_posts_witness :
  posts (snd (node_send "preview" "studio" opaque_target_throws "ping" (JNum 2)
                (fst (destroy "preview" "studio" opaque_target_throws connected_node))))
  = [(7, studio_origin,
      mkMsg (ch_id (node_channel connected_node)) (JNum 2) "sanity/channels" "preview"
            (ch_next_uuid (node_channel connected_node)) "studio" "ping")]
  /\ ch_id (node_channel connected_node) = JStr "k".
Proof.
  split; [|vm_compute; reflexivity].
  apply send_after_destroy_still_posts; vm_compute; (reflexivity || discriminate).
Defined.
